(** * Nested-set plugin (src/nestedSet.ts): shallow embedding and properties

    The plugin keeps a tree inside a flat collection of documents.  Every
    document carries [lft]/[rgt] boundaries and a parent reference; two
    lifecycle hooks adjust the boundaries on creation and removal,
    [rebuildTree] derives them from the parent references, and a family of
    query methods turns a document's boundaries into collection filters.

    The collection is modelled as the list of its documents in store order,
    a JavaScript number that may be missing as [option Z], and a filter
    object as a record with one optional condition per key, so that assigning
    a key replaces what the caller had put there, as it does in the source.
    A filter bound that a method reads from a missing field reaches the
    collection as [null], which [$lte] and [$gte] match on the documents
    that miss the field too.

    Scope of the model.  Numbers are integers.  Calls to the collection
    succeed: the [err] argument of every callback is empty.  The field
    names are the defaults ([_id], [parentReference]) and the grouping key,
    when configured, names a field of the schema other than the plugin's
    own.  The [fields] and [options] arguments that the query methods hand
    through to [find] (projection, paging) are left out, and so is the lean
    projection of [rebuildTree]'s lookup of children, which only drops
    fields that [rebuildTree] never reads.  [rebuildTree] recurses along the
    parent references and need not terminate on a cyclic collection, so it
    carries fuel. *)

From Stdlib Require Import ZArith Lia.
From stdpp Require Import base option list list_numbers gmap strings.

Local Open Scope Z_scope.

(** ** JavaScript values used by the plugin *)

(** A number field of a document: [None] stands for [undefined] (and for
    the [NaN] that arithmetic on [undefined] produces). *)
Abbreviation num := (option Z).

(** Truthiness of a number field: [undefined], [NaN] and [0] are falsy. *)
Definition truthy (v : num) : bool :=
  match v with
  | Some z => negb (z =? 0)
  | None => false
  end.

(** [a + k] for a literal [k]. *)
Definition js_add (a : num) (k : Z) : num := (λ z, z + k) <$> a.

(** [a - b]. *)
Definition js_sub (a b : num) : num :=
  match a, b with
  | Some x, Some y => Some (x - y)
  | _, _ => None
  end.

(** Relational operators; a comparison with a missing operand is false. *)
Definition js_lt (a b : num) : bool :=
  match a, b with
  | Some x, Some y => x <? y
  | _, _ => false
  end.

Definition js_le (a b : num) : bool :=
  match a, b with
  | Some x, Some y => x <=? y
  | _, _ => false
  end.

Definition js_gt (a b : num) : bool := js_lt b a.
Definition js_ge (a b : num) : bool := js_le b a.

(** What a method written [a && b && c] hands back: the first falsy operand
    or the last one. *)
Inductive JsVal :=
| JUndefined
| JNumber (z : Z)
| JBool (b : bool).

Definition of_num (v : num) : JsVal :=
  match v with
  | Some z => JNumber z
  | None => JUndefined
  end.

Definition js_truthy (v : JsVal) : bool :=
  match v with
  | JUndefined => false
  | JNumber z => negb (z =? 0)
  | JBool b => b
  end.

Definition js_and (a b : JsVal) : JsVal := if js_truthy a then b else a.

(** ** Documents and the collection *)

Definition ObjectId : Type := nat.
Bind Scope nat_scope with ObjectId.

(** Truthiness of a reference field: an identifier is an object, hence
    truthy whenever the field is set. *)
Definition ref_truthy (r : option ObjectId) : bool := bool_decide (is_Some r).

(** A document of the schema: the identifier, the fields the plugin adds
    ([parentReference], [lft], [rgt], [lvl]) and the schema's own fields,
    an object keyed by field name. *)
Record Node := mkNode {
  _id : ObjectId;
  parentReference : option ObjectId;
  lft : num;
  rgt : num;
  lvl : num;
  fields : gmap string Z
}.

Definition set_lft (v : num) (n : Node) : Node :=
  mkNode (_id n) (parentReference n) v (rgt n) (lvl n) (fields n).
Definition set_rgt (v : num) (n : Node) : Node :=
  mkNode (_id n) (parentReference n) (lft n) v (lvl n) (fields n).
Definition set_lvl (v : num) (n : Node) : Node :=
  mkNode (_id n) (parentReference n) (lft n) (rgt n) v (fields n).

(** The collection, in store order. *)
Abbreviation Store := (list Node).

(** ** Filters *)

Inductive CmpOp := op_gt | op_gte | op_lt | op_lte.

(** The field is missing from the document. *)
Definition missing (field : num) : bool :=
  match field with
  | Some _ => false
  | None => true
  end.

(** How the collection compares a field with the bound of a filter.  A
    number bound is met only by a number field.  A bound that the method
    reads from a missing field goes out as [null]: [$lte] and [$gte] then
    hold of the documents on which the field is missing as well, [$lt] and
    [$gt] of no document. *)
Definition cmp (op : CmpOp) (field bound : num) : bool :=
  match op with
  | op_gt => js_gt field bound
  | op_gte => if missing bound then missing field else js_ge field bound
  | op_lt => js_lt field bound
  | op_lte => if missing bound then missing field else js_le field bound
  end.

(** A condition on the identifier: [{_id: i}] or [{_id: {$ne: i}}]. *)
Inductive IdCond := id_is (i : option ObjectId) | id_ne (i : ObjectId).

(** One alternative of an [$or] list. *)
Inductive OrClause :=
| or_parent (p : ObjectId)
| or_id (i : ObjectId).

(** A conditions object: one optional entry per key; the entries are
    conjoined.  [c_fields] holds equalities on the schema's own fields. *)
Record Conditions := mkConditions {
  c_id : option IdCond;
  c_parent : option (option ObjectId);
  c_lft : option (CmpOp * num);
  c_rgt : option (CmpOp * num);
  c_or : option (list OrClause);
  c_fields : gmap string (option Z)
}.

Definition no_conditions : Conditions :=
  mkConditions None None None None None ∅.

Definition with_id (v : IdCond) (c : Conditions) : Conditions :=
  mkConditions (Some v) (c_parent c) (c_lft c) (c_rgt c) (c_or c) (c_fields c).
Definition with_parent (v : option ObjectId) (c : Conditions) : Conditions :=
  mkConditions (c_id c) (Some v) (c_lft c) (c_rgt c) (c_or c) (c_fields c).
Definition with_lft (op : CmpOp) (v : num) (c : Conditions) : Conditions :=
  mkConditions (c_id c) (c_parent c) (Some (op, v)) (c_rgt c) (c_or c) (c_fields c).
Definition with_rgt (op : CmpOp) (v : num) (c : Conditions) : Conditions :=
  mkConditions (c_id c) (c_parent c) (c_lft c) (Some (op, v)) (c_or c) (c_fields c).
Definition with_or (v : list OrClause) (c : Conditions) : Conditions :=
  mkConditions (c_id c) (c_parent c) (c_lft c) (c_rgt c) (Some v) (c_fields c).
Definition with_field (k : string) (v : option Z) (c : Conditions) : Conditions :=
  mkConditions (c_id c) (c_parent c) (c_lft c) (c_rgt c) (c_or c)
    (<[k := v]> (c_fields c)).

(** The filter a caller hands to a query method: a conditions object that
    may wrap its conditions in a [$query] entry. *)
Record Filter := mkFilter {
  top : Conditions;
  dollar_query : option Conditions
}.

Definition empty_filter : Filter := mkFilter no_conditions None.
Definition plain (c : Conditions) : Filter := mkFilter c None.

Definition opt_holds {A} (p : A → bool) (o : option A) : bool :=
  match o with
  | Some a => p a
  | None => true
  end.

Definition id_holds (n : Node) (c : IdCond) : bool :=
  match c with
  | id_is i => bool_decide (Some (_id n) = i)
  | id_ne i => negb (bool_decide (_id n = i))
  end.

Definition or_holds (n : Node) (c : OrClause) : bool :=
  match c with
  | or_parent p => bool_decide (parentReference n = Some p)
  | or_id i => bool_decide (_id n = i)
  end.

Definition fields_hold (n : Node) (m : gmap string (option Z)) : bool :=
  bool_decide (map_Forall (λ k v, fields n !! k = v) m).

Definition matches_conditions (c : Conditions) (n : Node) : bool :=
  opt_holds (id_holds n) (c_id c)
  && opt_holds (λ p, bool_decide (parentReference n = p)) (c_parent c)
  && opt_holds (λ '(op, v), cmp op (lft n) v) (c_lft c)
  && opt_holds (λ '(op, v), cmp op (rgt n) v) (c_rgt c)
  && opt_holds (existsb (or_holds n)) (c_or c)
  && fields_hold n (c_fields c).

Definition matches (f : Filter) (n : Node) : bool :=
  match dollar_query f with
  | Some q => matches_conditions q n
  | None => matches_conditions (top f) n
  end.

(** ** The model's operations on the collection *)

Definition find (s : Store) (f : Filter) : list Node :=
  filter (λ n, matches f n = true) s.

Definition findOne (s : Store) (f : Filter) : option Node :=
  head (find s f).

Inductive IncField := inc_lft | inc_rgt.

Definition inc (fld : IncField) (delta : Z) (n : Node) : Node :=
  match fld with
  | inc_lft => set_lft (js_add (lft n) delta) n
  | inc_rgt => set_rgt (js_add (rgt n) delta) n
  end.

(** [updateMany(conditions, {$inc: {fld: delta}})]. *)
Definition updateMany (s : Store) (c : Conditions) (fld : IncField) (delta : Z) : Store :=
  (λ n, if matches_conditions c n then inc fld delta n else n) <$> s.

(** [updateOne({_id: i}, {lft: l, rgt: r})]: the first document with that
    identifier, if there is one. *)
Fixpoint updateOne (s : Store) (i : ObjectId) (l r : num) : Store :=
  match s with
  | [] => []
  | n :: s' =>
      if bool_decide (_id n = i) then set_rgt r (set_lft l n) :: s'
      else n :: updateOne s' i l r
  end.

(** ** The plugin *)

Record INestedSetOptions := mkOptions {
  groupingKey : option string
}.

Inductive Error := NotFound.

(** What a lifecycle hook leaves behind when it calls [next]: the
    collection, the document the hook ran on, and the error handed to
    [next], if any. *)
Record HookResult := mkHook {
  hook_store : Store;
  hook_doc : Node;
  hook_error : option Error
}.

(** [next()] *)
Definition next (s : Store) (doc : Node) : HookResult := mkHook s doc None.

(** How a call of [rebuildTree] ends: it settles, with or without an error,
    leaving a collection and the in-memory document it was given, or the
    model ran out of fuel before it did. *)
Inductive Outcome :=
| Settled (err : option Error) (s : Store) (parent : Node)
| OutOfFuel.

(** Every array is truthy, the empty one too. *)
Definition array_truthy {A} (a : list A) : bool := true.

(** [async.forEachSeries]: one item after the other, each starting from the
    state the previous one left. *)
Fixpoint forEachSeries {A St} (items : list A) (iteratee : A → St → option St)
    (st : St) : option St :=
  match items with
  | [] => Some st
  | item :: rest =>
      match iteratee item st with
      | Some st' => forEachSeries rest iteratee st'
      | None => None
      end
  end.

Section NestedSetPlugin.

Variable options : INestedSetOptions.

Definition updateConditions (conditions : Conditions) (item : Node) : Conditions :=
  match groupingKey options with
  | Some key =>
      if bool_decide (key ≠ EmptyString)
      then with_field key (fields item !! key) conditions
      else conditions
  | None => conditions
  end.

(** Writes a query method's own entries into the caller's filter: inside
    [$query] when the caller supplied one, at top level otherwise. *)
Definition set_in (entries : Conditions → Conditions) (filters : Filter) : Filter :=
  match dollar_query filters with
  | Some q => mkFilter (top filters) (Some (entries q))
  | None => mkFilter (entries (top filters)) None
  end.

(** *** Interval predicates *)

Definition has_bounds (node : Node) : bool := truthy (lft node) && truthy (rgt node).

Definition isLeaf (this : Node) : JsVal :=
  js_and (js_and (of_num (lft this)) (of_num (rgt this)))
         (JBool (bool_decide (js_sub (rgt this) (lft this) = Some 1))).

Definition isChild (this : Node) : bool := ref_truthy (parentReference this).

Definition isDescendantOf (self other : Node) : bool :=
  js_lt (lft other) (lft self) && js_lt (lft self) (rgt other).

Definition isAncestorOf (self other : Node) : bool :=
  js_lt (lft self) (lft other) && js_lt (lft other) (rgt self).

(** *** Relationship queries *)

Definition parent (s : Store) (self : Node) : option Node :=
  findOne s (plain (with_id (id_is (parentReference self)) no_conditions)).

Definition selfAndAncestors (s : Store) (self : Node) (filters : Filter) : list Node :=
  find s (set_in (λ c, with_rgt op_gte (rgt self) (with_lft op_lte (lft self) c)) filters).

Definition ancestors (s : Store) (self : Node) (filters : Filter) : list Node :=
  find s (set_in (λ c, with_rgt op_gt (rgt self) (with_lft op_lt (lft self) c)) filters).

Definition children (s : Store) (self : Node) (filters : Filter) : list Node :=
  find s (set_in (with_parent (Some (_id self))) filters).

Definition selfAndChildren (s : Store) (self : Node) (filters : Filter) : list Node :=
  find s (set_in (with_or [or_parent (_id self); or_id (_id self)]) filters).

Definition selfAndDescendants (s : Store) (self : Node) (filters : Filter) : list Node :=
  find s (set_in (λ c, with_rgt op_lte (rgt self) (with_lft op_gte (lft self) c)) filters).

Definition descendants (s : Store) (self : Node) (filters : Filter) : list Node :=
  find s (set_in (λ c, with_rgt op_lt (rgt self) (with_lft op_gt (lft self) c)) filters).

Definition selfAndSiblings (s : Store) (self : Node) (filters : Filter) : list Node :=
  find s (set_in (with_parent (parentReference self)) filters).

Definition siblings (s : Store) (self : Node) (filters : Filter) : list Node :=
  find s (set_in (λ c, with_id (id_ne (_id self))
                         (with_parent (parentReference self) c)) filters).

Definition level (s : Store) (self : Node) : nat :=
  length (ancestors s self empty_filter).

(** *** Lifecycle hooks *)

(** The [maxRgt] of both hooks, which compute it by the same lines: the
    largest sibling [rgt] found above the initial 0, replaced by the
    parent's [lft] when there is no sibling. *)
Definition maxRgt_of (nodes : list Node) (parentNode : Node) : num :=
  let maxRgt :=
    foldl (λ maxRgt node, if js_gt (rgt node) maxRgt then rgt node else maxRgt)
          (Some 0) nodes in
  if bool_decide (length nodes = 0%nat) then lft parentNode else maxRgt.

(** The two range updates of a hook, one after the other: [lft] first, then
    [rgt], each filter passed through [updateConditions]. *)
Definition shift_after (s : Store) (self : Node) (maxRgt : num) (delta : Z) : Store :=
  let conditions := updateConditions (with_lft op_gt maxRgt no_conditions) self in
  let s := updateMany s conditions inc_lft delta in
  let conditions := updateConditions (with_rgt op_gt maxRgt no_conditions) self in
  updateMany s conditions inc_rgt delta.

Definition pre_save (s : Store) (self : Node) : HookResult :=
  if ref_truthy (parentReference self) then
    match parent s self with
    | Some parentNode =>
        if has_bounds parentNode then
          let self := set_lvl (js_add (lvl parentNode) 1) self in
          let nodes := siblings s self empty_filter in
          if forallb has_bounds nodes then
            let maxRgt := maxRgt_of nodes parentNode in
            let s := shift_after s self maxRgt 2 in
            let self := set_rgt (js_add maxRgt 2) (set_lft (js_add maxRgt 1) self) in
            next s self
          else next s self
        else next s self
    | None => next s self
    end
  else next s self.

Definition pre_remove (s : Store) (self : Node) : HookResult :=
  if ref_truthy (parentReference self) then
    match parent s self with
    | Some parentNode =>
        if has_bounds parentNode then
          let nodes := siblings s self empty_filter in
          if forallb has_bounds nodes then
            let maxRgt := maxRgt_of nodes parentNode in
            let s := shift_after s self maxRgt (-2) in
            next s self
          else next s self
        else next s self
    | None => next s self
    end
  else next s self.

(** *** rebuildTree *)

(** The direct children of [parent], as [rebuildTree] looks them up:
    [find({parentReference: parent._id}, ...)], in store order. *)
Definition find_children (s : Store) (parent : Node) : list Node :=
  find s (plain (with_parent (Some (_id parent)) no_conditions)).

(** The iteratee of the loop over the children: rebuild the child's subtree
    from the parent's running [rgt], then move the parent's [rgt] past the
    child and store the parent's boundaries.  Whatever error the child's
    call hands to its callback is dropped there. *)
Definition rebuild_child (rebuild : Store → Node → num → Outcome)
    (item : Node) (st : Store * Node) : option (Store * Node) :=
  let '(s, parent) := st in
  match rebuild s item (rgt parent) with
  | Settled _ s item =>
      let parent := set_rgt (js_add (rgt item) 1) parent in
      Some (updateOne s (_id parent) (lft parent) (rgt parent), parent)
  | OutOfFuel => None
  end.

Fixpoint rebuildTree (fuel : nat) (s : Store) (parent : Node) (left : num) : Outcome :=
  match fuel with
  | O => OutOfFuel
  | S fuel' =>
      let parent := set_rgt (js_add left 1) (set_lft left parent) in
      let children := find_children s parent in
      if negb (array_truthy children) then Settled (Some NotFound) s parent
      else if bool_decide (0 < length children)%nat then
        match forEachSeries children (rebuild_child (rebuildTree fuel')) (s, parent) with
        | Some (s, parent) => Settled None s parent
        | None => OutOfFuel
        end
      else Settled None (updateOne s (_id parent) (lft parent) (rgt parent)) parent
  end.

End NestedSetPlugin.

(** ** The collection's own lifecycle

    What the persistence layer does around the hooks: a new document is
    appended to the collection once the creation hook has run, and the
    document with the removed identifier is deleted once the removal hook
    has run. *)

Definition save (options : INestedSetOptions) (s : Store) (doc : Node) : Store * Node :=
  let r := pre_save options s doc in
  (hook_store r ++ [hook_doc r], hook_doc r).

Definition delete_by_id (s : Store) (i : ObjectId) : Store :=
  filter (λ n, _id n ≠ i) s.

Definition remove (options : INestedSetOptions) (s : Store) (doc : Node) : Store :=
  delete_by_id (hook_store (pre_remove options s doc)) (_id doc).

(** ** The test tree

    The ten users of the test suite, saved in this order into an empty
    collection; no boundary is set before the first rebuild. *)

Definition user (i : ObjectId) (p : option ObjectId) : Node :=
  mkNode i p None None (Some 0) ∅.

Definition michael : Node := user 1 None.
Definition meredith : Node := user 2 (Some 1%nat).
Definition jim : Node := user 3 (Some 1%nat).
Definition angela : Node := user 4 (Some 1%nat).
Definition kelly : Node := user 5 (Some 2%nat).
Definition creed : Node := user 6 (Some 2%nat).
Definition phyllis : Node := user 7 (Some 3%nat).
Definition stanley : Node := user 8 (Some 3%nat).
Definition dwight : Node := user 9 (Some 3%nat).
Definition oscar : Node := user 10 (Some 4%nat).

Definition office : Store :=
  [michael; meredith; jim; angela; kelly; creed; phyllis; stanley; dwight; oscar].

Definition no_options : INestedSetOptions := mkOptions None.

(** A user with its boundaries, as the collection holds it after a rebuild. *)
Definition built (n : Node) (l r : Z) : Node := set_rgt (Some r) (set_lft (Some l) n).

Definition office_built : Store :=
  [built michael 1 20; built meredith 2 7; built jim 8 15; built angela 16 19;
   built kelly 3 4; built creed 5 6; built phyllis 9 10; built stanley 11 12;
   built dwight 13 14; built oscar 17 18].

(** ** Vocabulary of the properties *)

#[global] Instance Node_eq_dec : EqDecision Node.
Proof. solve_decision. Defined.

(** The data model's range for a boundary: a non-negative number when it is
    there at all. *)
Definition nonneg (v : num) : bool :=
  match v with
  | Some z => 0 <=? z
  | None => true
  end.

Definition data_model (n : Node) : bool := nonneg (lft n) && nonneg (rgt n).

(** Both boundaries are numbers (zero included). *)
Definition bounds_present (n : Node) : bool :=
  bool_decide (is_Some (lft n)) && bool_decide (is_Some (rgt n)).

(** A boundary is missing. *)
Definition bounds_unset (n : Node) : Prop := lft n = None ∨ rgt n = None.

(** Two documents belong to the same partition: they agree on the grouping
    key when one is configured; there is a single partition otherwise. *)
Definition same_partition (options : INestedSetOptions) (a b : Node) : bool :=
  match groupingKey options with
  | Some key =>
      if bool_decide (key ≠ EmptyString)
      then bool_decide (fields a !! key = fields b !! key)
      else true
  | None => true
  end.

(** The range update of the hooks as the specification words it: within the
    partition of [self], [lft] moves by [delta] when it exceeds [maxRgt] and,
    independently, [rgt] moves by [delta] when it exceeds [maxRgt]; both
    tests read the document as it was before the update. *)
Definition shifted (options : INestedSetOptions) (self : Node) (maxRgt : num)
    (delta : Z) (n : Node) : Node :=
  let l := if same_partition options n self && js_gt (lft n) maxRgt
           then js_add (lft n) delta else lft n in
  let r := if same_partition options n self && js_gt (rgt n) maxRgt
           then js_add (rgt n) delta else rgt n in
  set_rgt r (set_lft l n).

(** All boundary values held by the collection, document by document. *)
Definition boundaries (s : Store) : list num := s ≫= λ n, [lft n; rgt n].

(** *** Interval geometry of the nested-set invariant *)

(** [a]'s interval lies strictly inside [b]'s. *)
Definition nested_in (a b : Node) : bool :=
  js_lt (lft b) (lft a) && js_lt (rgt a) (rgt b).

(** The two intervals do not meet. *)
Definition disjoint (a b : Node) : bool :=
  js_lt (rgt a) (lft b) || js_lt (rgt b) (lft a).

(** Invariants 1 and 2 of the data model, over one collection: an interval
    has its left end before its right end, and two different documents of a
    partition have nested or disjoint intervals. *)
Definition well_formed (options : INestedSetOptions) (s : Store) : bool :=
  forallb (λ a,
    (negb (bounds_present a) || js_lt (lft a) (rgt a))
    && forallb (λ b,
         bool_decide (a = b)
         || negb (same_partition options a b)
         || negb (bounds_present a && bounds_present b)
         || nested_in a b || nested_in b a || disjoint a b) s) s.

(** Exactly one of the listed alternatives holds. *)
Definition exactly_one (alternatives : list bool) : Prop :=
  length (filter (λ b, b = true) alternatives) = 1%nat.

(** *** Trees given by parent references *)

Unset Elimination Schemes.
Inductive tree := T (i : ObjectId) (cs : list tree).
Set Elimination Schemes.

Definition root_id (t : tree) : ObjectId := match t with T i _ => i end.

Fixpoint size (t : tree) : nat :=
  match t with T _ cs => S (sum_list (size <$> cs)) end.

Fixpoint height (t : tree) : nat :=
  match t with T _ cs => S (max_list (height <$> cs)) end.

(** The identifiers of a tree, parent first. *)
Fixpoint tree_ids (t : tree) : list ObjectId :=
  match t with T i cs => i :: (cs ≫= tree_ids) end.

(** The documents of [s] that name [i] as their parent, in store order. *)
Definition pointing_to (s : Store) (i : ObjectId) : list Node :=
  filter (λ n, parentReference n = Some i) s.

(** The parent references of [s] spell out the tree [t]: the documents
    pointing to a node of [t] are its children, in store order, all the way
    down. *)
Fixpoint represents (s : Store) (t : tree) : bool :=
  match t with
  | T i cs =>
      bool_decide (_id <$> pointing_to s i = root_id <$> cs)
      && forallb (represents s) cs
  end.

(** The test tree as a tree. *)
Definition office_tree : tree :=
  T 1 [T 2 [T 5 []; T 6 []]; T 3 [T 7 []; T 8 []; T 9 []]; T 4 [T 10 []]].

Definition zsize (t : tree) : Z := Z.of_nat (size t).

(** The interval a rebuild started at [L] gives to the document [x] of the
    tree [t], in closed form: the root takes [L] and [L + 2 * size - 1], the
    children follow one another from [L + 1], and a later write wins. *)
Definition labels_of (label : tree → Z → option (Z * Z))
    : list tree → Z → option (Z * Z) :=
  fix go cs R :=
    match cs with
    | [] => None
    | c :: cs' =>
        match go cs' (R + 2 * zsize c) with
        | Some b => Some b
        | None => label c R
        end
    end.

Fixpoint label (x : ObjectId) (t : tree) (L : Z) : option (Z * Z) :=
  match t with
  | T i cs =>
      if decide (x = i) then Some (L, L + 2 * zsize t - 1)
      else labels_of (label x) cs (L + 1)
  end.

(** Writing intervals into the collection, by identifier. *)
Definition relabel (f : ObjectId → option (Z * Z)) (s : Store) : Store :=
  (λ n, match f (_id n) with
        | Some (l, r) => set_rgt (Some r) (set_lft (Some l) n)
        | None => n
        end) <$> s.

Definition zsizes (cs : list tree) : Z := Z.of_nat (sum_list (size <$> cs)).

(** What the loop over the children [cs] of [i] has written once it is
    through: every child's subtree, and [i] itself after each child. *)
Definition loop_label (x i : ObjectId) (L : Z) : list tree → Z → option (Z * Z) :=
  labels_of (λ c R, if decide (x = i) then Some (L, R + 2 * zsize c)
                    else label x c R).

(** The two ends of an interval, if there is one. *)
Definition interval_ends (b : option (Z * Z)) : list Z :=
  match b with
  | Some (l, r) => [l; r]
  | None => []
  end.

(** What a rebuild of the tree [c] does with [fuel] to spare, whatever the
    collection that spells [c] out and the left boundary it starts from. *)
Definition rebuilt_as (fuel : nat) (c : tree) : Prop :=
  ∀ s parent L,
    (height c ≤ fuel)%nat → NoDup (_id <$> s) → represents s c = true →
    _id parent = root_id c →
    rebuildTree fuel s parent (Some L)
    = Settled None (relabel (λ x, label x c L) s)
        (built parent L (L + 2 * zsize c - 1)).

(** *** More test data *)

(** A new user under jim, whose children end at 14. *)
Definition toby : Node := user 11 (Some 3%nat).

(** joe, the user the test suite adds under creed. *)
Definition joe : Node := user 11 (Some 6%nat).

(** Two organisations in one collection, grouped by the field [org]: a
    department of the first, a wider interval of the second, and a document
    of the second that names the department as its parent. *)
Definition by_org : INestedSetOptions := mkOptions (Some "org"%string).

Definition in_org (org : Z) (n : Node) : Node :=
  mkNode (_id n) (parentReference n) (lft n) (rgt n) (lvl n) {["org"%string := org]}.

Definition department : Node := in_org 1 (built (user 1 None) 2 5).
Definition foreign_group : Node := in_org 2 (built (user 2 None) 1 6).
Definition foreign_child : Node := in_org 2 (user 3 (Some 1%nat)).

Definition two_orgs : Store := [department; foreign_group; foreign_child].

(** *** Vocabulary of the further properties *)

(** Everything of a document but its two boundaries. *)
Definition frame (n : Node) : ObjectId * option ObjectId * num * gmap string Z :=
  (_id n, parentReference n, lvl n, fields n).

(** A caller's conditions without their entries for [lft] and [rgt]. *)
Definition without_bounds (c : Conditions) : Conditions :=
  mkConditions (c_id c) (c_parent c) None None (c_or c) (c_fields c).

(** A user whose parent reference names no document of the test tree. *)
Definition orphan : Node := user 12 (Some 99%nat).

(** Two intervals are nested one in the other or apart. *)
Definition laminar (lx rx ly ry : Z) : Prop :=
  (ly < lx ∧ rx < ry) ∨ (lx < ly ∧ ry < rx) ∨ rx < ly ∨ ry < lx.

(** The depth of the document [x] in a tree: 0 for the root, one more than
    in the child's subtree below it. *)
Definition depths_of (depth : tree → option nat) : list tree → option nat :=
  fix go cs :=
    match cs with
    | [] => None
    | c :: cs' =>
        match go cs' with
        | Some d => Some d
        | None => depth c
        end
    end.

Fixpoint depth_of (x : ObjectId) (t : tree) : option nat :=
  match t with
  | T i cs =>
      if decide (x = i) then Some 0%nat
      else S <$> depths_of (depth_of x) cs
  end.

(** The first interval strictly contains the second. *)
Definition encloses (outer inner : option (Z * Z)) : bool :=
  match outer, inner with
  | Some (lo, ro), Some (li, ri) => (lo <? li) && (ri <? ro)
  | _, _ => false
  end.

(** The two clauses of [well_formed], for one document and for a pair. *)
Definition ordered (a : Node) : bool :=
  negb (bounds_present a) || js_lt (lft a) (rgt a).

Definition compatible (options : INestedSetOptions) (a b : Node) : bool :=
  bool_decide (a = b)
  || negb (same_partition options a b)
  || negb (bounds_present a && bounds_present b)
  || nested_in a b || nested_in b a || disjoint a b.

(** The move of one boundary value by a range update above [z]. *)
Definition bump (z delta v : Z) : Z := if z <? v then v + delta else v.

(** The collection holds a document with the identifier [i] that names
    itself as its parent. *)
Definition own_child (s : Store) (i : ObjectId) : Prop :=
  ∃ n, n ∈ s ∧ _id n = i ∧ parentReference n = Some i.

(** A user that names itself as its parent. *)
Definition ouroboros : Node := user 1 (Some 1%nat).

(** * Properties *)

(** Settles a decidable closed statement by evaluating its decision. *)
Ltac by_computation := apply (bool_decide_unpack _); vm_compute; exact I.

(** ** JavaScript values *)

Lemma truthy_Some v : truthy v = true ↔ ∃ z, v = Some z ∧ z ≠ 0.
Proof.
  destruct v as [z|]; simpl.
  - rewrite negb_true_iff, Z.eqb_neq. split.
    + intros Hz. by exists z.
    + by intros (z' & [= <-] & Hz).
  - split; [done|]. by intros (z & ? & _).
Qed.

Lemma truthy_pos v : truthy v = true → nonneg v = true → ∃ z, v = Some z ∧ 0 < z.
Proof.
  intros [z [-> Hz]]%truthy_Some Hn. simpl in Hn. exists z. split; [done|lia].
Qed.

(** ** Filters *)

Lemma fields_hold_empty n : fields_hold n ∅ = true.
Proof. apply bool_decide_eq_true_2, map_Forall_empty. Qed.

Lemma fields_hold_singleton n k v :
  fields_hold n (<[k := v]> ∅) = bool_decide (fields n !! k = v).
Proof.
  unfold fields_hold. apply bool_decide_ext.
  rewrite map_Forall_insert by apply lookup_empty.
  split; [by intros [? _]|]. intros; split; [done|apply map_Forall_empty].
Qed.

Lemma find_children_pointing s parent :
  find_children s parent = pointing_to s (_id parent).
Proof.
  unfold find_children, find, pointing_to. apply list_filter_iff. intros n.
  unfold matches, matches_conditions; simpl. rewrite fields_hold_empty.
  rewrite !andb_true_r. apply bool_decide_eq_true.
Qed.

Lemma tree_ind' (P : tree → Prop) :
  (∀ i cs, Forall P cs → P (T i cs)) → ∀ t, P t.
Proof.
  intros step. fix IH 1. intros [i cs]. apply step.
  induction cs as [|c cs IHcs]; constructor; [apply IH|apply IHcs].
Qed.

(** ** Writing intervals by identifier *)

Lemma relabel_none s : relabel (λ _, None) s = s.
Proof. unfold relabel. apply list_fmap_id. Qed.

Lemma ids_relabel f s : _id <$> relabel f s = _id <$> s.
Proof.
  unfold relabel. rewrite <- list_fmap_compose. apply list_fmap_ext.
  intros _ n _; simpl. by destruct (f (_id n)) as [[l r]|].
Qed.

Lemma relabel_relabel g f s :
  relabel g (relabel f s)
  = relabel (λ x, match g x with Some b => Some b | None => f x end) s.
Proof.
  unfold relabel. rewrite <- list_fmap_compose. apply list_fmap_ext.
  intros _ n _; simpl.
  destruct (f (_id n)) as [[l r]|]; simpl;
    destruct (g (_id n)) as [[l' r']|]; reflexivity.
Qed.

Lemma relabel_ext f g s :
  (∀ x, x ∈ _id <$> s → f x = g x) → relabel f s = relabel g s.
Proof.
  intros Hfg. unfold relabel. apply list_fmap_ext. intros k n Hk.
  rewrite Hfg; [done|]. apply list_elem_of_fmap. exists n. split; [done|].
  by eapply list_elem_of_lookup_2.
Qed.

Lemma filter_fmap_stable {A} (P : A → Prop) `{∀ x, Decision (P x)}
    (g : A → A) (l : list A) :
  (∀ x, P (g x) ↔ P x) → filter P (g <$> l) = g <$> filter P l.
Proof.
  intros HP. induction l as [|x l IH]; [done|].
  rewrite fmap_cons, !filter_cons, IH.
  destruct (decide (P (g x))) as [Hg|Hg], (decide (P x)) as [Hx|Hx]; try done.
  - destruct Hx. by apply HP.
  - destruct Hg. by apply HP.
Qed.

Lemma pointing_to_relabel f s i :
  pointing_to (relabel f s) i = relabel f (pointing_to s i).
Proof.
  unfold pointing_to, relabel. apply filter_fmap_stable.
  intros n. by destruct (f (_id n)) as [[l r]|].
Qed.

Lemma represents_relabel f s t : represents (relabel f s) t = represents s t.
Proof.
  induction t as [i cs IH] using tree_ind'. simpl.
  rewrite pointing_to_relabel, ids_relabel. f_equal.
  induction IH as [|c cs Hc _ IHcs]; simpl; [done|]. by rewrite Hc, IHcs.
Qed.

Lemma updateOne_relabel s i l r :
  NoDup (_id <$> s) →
  updateOne s i (Some l) (Some r)
  = relabel (λ x, if decide (x = i) then Some (l, r) else None) s.
Proof.
  induction s as [|n s IH]; intros Hnd; [done|].
  apply NoDup_cons in Hnd as [Hn Hnd]. simpl.
  case_bool_decide as Hi.
  - rewrite decide_True by done. f_equal.
    rewrite <- (relabel_none s) at 1. apply relabel_ext.
    intros x Hx. rewrite decide_False; [done|].
    intros ->. apply Hn. by rewrite Hi.
  - rewrite decide_False by done. f_equal. by apply IH.
Qed.

(** ** rebuildTree on a tree *)

Lemma zsize_T i cs : zsize (T i cs) = 1 + zsizes cs.
Proof.
  unfold zsize, zsizes.
  change (size (T i cs)) with (S (sum_list (size <$> cs))). lia.
Qed.

Lemma zsizes_cons c cs : zsizes (c :: cs) = zsize c + zsizes cs.
Proof.
  unfold zsize, zsizes.
  change (sum_list (size <$> c :: cs)) with (size c + sum_list (size <$> cs))%nat.
  lia.
Qed.

Lemma zsizes_nil : zsizes [] = 0.
Proof. reflexivity. Qed.

Lemma zsize_pos t : 0 < zsize t.
Proof. destruct t. rewrite zsize_T. unfold zsizes. lia. Qed.

Lemma loop_label_root x i L cs R :
  cs ≠ [] →
  loop_label x i L cs R
  = if decide (x = i) then Some (L, R + 2 * zsizes cs)
    else labels_of (label x) cs R.
Proof.
  revert R. induction cs as [|c cs IH]; intros R Hne; [done|].
  unfold loop_label in *. simpl. destruct cs as [|c' cs].
  - simpl. rewrite zsizes_cons. unfold zsizes at 1; simpl.
    destruct (decide (x = i)); [f_equal; f_equal; lia|done].
  - rewrite IH by done. destruct (decide (x = i)); [|done].
    rewrite (zsizes_cons c). f_equal; f_equal; lia.
Qed.

Lemma set_rgt_same par R : rgt par = Some R → set_rgt (Some R) par = par.
Proof. destruct par; simpl; by intros ->. Qed.

Lemma rebuild_children fuel i L cs :
  Forall (rebuilt_as fuel) cs →
  ∀ items s par R,
    _id <$> items = root_id <$> cs →
    forallb (represents s) cs = true →
    NoDup (_id <$> s) →
    Forall (λ c, (height c ≤ fuel)%nat) cs →
    _id par = i → lft par = Some L → rgt par = Some R →
    forEachSeries items (rebuild_child (rebuildTree fuel)) (s, par)
    = Some (relabel (λ x, loop_label x i L cs R) s,
            set_rgt (Some (R + 2 * zsizes cs)) par).
Proof.
  induction 1 as [|c cs Hc _ IH]; intros items s par R Hids Hrep Hnd Hh Hi Hl Hr.
  - destruct items; [|done]. simpl.
    rewrite relabel_none. unfold zsizes; simpl. rewrite Z.add_0_r.
    by rewrite set_rgt_same.
  - destruct items as [|item items]; [done|].
    injection Hids as Hitem Hids.
    simpl in Hrep. apply andb_true_iff in Hrep as [Hrc Hrep].
    apply Forall_cons in Hh as [Hhc Hh].
    simpl. rewrite Hr, (Hc s item R Hhc Hnd Hrc Hitem). simpl.
    rewrite Hi, Hl.
    replace (R + 2 * zsize c - 1 + 1) with (R + 2 * zsize c) by lia.
    rewrite updateOne_relabel by (by rewrite ids_relabel).
    rewrite relabel_relabel.
    rewrite (IH items _ _ (R + 2 * zsize c)); try done.
    + rewrite relabel_relabel. apply f_equal, injective_projections; simpl.
      * apply relabel_ext. intros x _. unfold loop_label. simpl.
        destruct (labels_of _ cs _); [done|].
        by destruct (decide (x = i)).
      * rewrite zsizes_cons.
        by replace (R + 2 * zsize c + 2 * zsizes cs)
          with (R + 2 * (zsize c + zsizes cs)) by lia.
    + rewrite <- Hrep. clear. induction cs as [|c' cs IHcs]; [done|].
      simpl. by rewrite IHcs, <- relabel_relabel, !represents_relabel.
    + by rewrite <- relabel_relabel, !ids_relabel.
Qed.

Lemma height_children i cs fuel :
  (height (T i cs) ≤ S fuel)%nat → Forall (λ c, (height c ≤ fuel)%nat) cs.
Proof.
  change (height (T i cs)) with (S (max_list (height <$> cs))). intros H.
  assert (max_list (height <$> cs) ≤ fuel)%nat as Hmax by lia. clear H.
  induction cs as [|c cs IH]; constructor.
  - change (max_list (height <$> c :: cs))
      with (height c `max` max_list (height <$> cs))%nat in Hmax. lia.
  - apply IH.
    change (max_list (height <$> c :: cs))
      with (height c `max` max_list (height <$> cs))%nat in Hmax. lia.
Qed.

Lemma settled_eq s1 s2 p1 p2 :
  s1 = s2 → p1 = p2 → Settled None s1 p1 = Settled None s2 p2.
Proof. congruence. Qed.

Lemma rebuildTree_tree t fuel : rebuilt_as fuel t.
Proof.
  revert fuel. induction t as [i cs IH] using tree_ind'.
  intros fuel s parent L Hh Hnd Hrep Hid.
  destruct fuel as [|fuel].
  { change (height (T i cs)) with (S (max_list (height <$> cs))) in Hh. lia. }
  simpl in Hrep. apply andb_true_iff in Hrep as [Hkids Hrep].
  apply bool_decide_eq_true in Hkids. simpl in Hid.
  cbn [rebuildTree]. unfold array_truthy. cbn [negb].
  rewrite find_children_pointing. cbn [_id set_rgt set_lft]. rewrite Hid.
  destruct cs as [|c cs].
  - destruct (pointing_to s i); [|done]. simpl.
    rewrite updateOne_relabel by done.
    replace (L + 2 * zsize (T i []) - 1) with (L + 1)
      by (rewrite zsize_T, zsizes_nil; lia).
    apply settled_eq; [|done].
    apply relabel_ext. intros x _. cbn [label labels_of].
    by destruct (decide (x = i)).
  - rewrite bool_decide_eq_true_2.
    2:{ destruct (pointing_to s i); [done|simpl; lia]. }
    rewrite (rebuild_children fuel i L (c :: cs)) with (R := L + 1); try done.
    + replace (L + 2 * zsize (T i (c :: cs)) - 1) with (L + 1 + 2 * zsizes (c :: cs))
        by (rewrite zsize_T; lia).
      apply settled_eq; [|done].
      apply relabel_ext. intros x _. rewrite loop_label_root by done.
      cbn [label]. destruct (decide (x = i)); [|done].
      by replace (L + 2 * zsize (T i (c :: cs)) - 1) with (L + 1 + 2 * zsizes (c :: cs))
        by (rewrite zsize_T; lia).
    + eapply Forall_impl; [exact IH|]. intros c' Hc'. apply Hc'.
    + by eapply height_children.
Qed.

(** ** The boundary values a rebuild hands out *)

Lemma labels_of_outside x cs R :
  Forall (λ c, ∀ L, x ∉ tree_ids c → label x c L = None) cs →
  x ∉ cs ≫= tree_ids → labels_of (label x) cs R = None.
Proof.
  intros Hcs. revert R. induction Hcs as [|c cs Hc _ IH]; intros R Hx; [done|].
  rewrite bind_cons in Hx. apply not_elem_of_app in Hx as [Hxc Hxcs].
  simpl. by rewrite IH, Hc.
Qed.

Lemma label_outside x t L : x ∉ tree_ids t → label x t L = None.
Proof.
  revert L. induction t as [i cs IH] using tree_ind'. intros L Hx.
  simpl in Hx. apply not_elem_of_cons in Hx as [Hxi Hx].
  simpl. rewrite decide_False by done. by apply labels_of_outside.
Qed.

Lemma labels_of_inside x cs R :
  Forall (λ c, ∀ L, x ∈ tree_ids c → is_Some (label x c L)) cs →
  x ∈ cs ≫= tree_ids → is_Some (labels_of (label x) cs R).
Proof.
  intros Hcs. revert R. induction Hcs as [|c cs Hc _ IH]; intros R Hx.
  - by apply elem_of_nil in Hx.
  - rewrite bind_cons in Hx. simpl.
    destruct (labels_of (label x) cs (R + 2 * zsize c)) as [b|] eqn:Hrest; [done|].
    apply elem_of_app in Hx as [Hx|Hx]; [by apply Hc|].
    apply (IH (R + 2 * zsize c)) in Hx. rewrite Hrest in Hx. by destruct Hx.
Qed.

Lemma label_inside x t L : x ∈ tree_ids t → is_Some (label x t L).
Proof.
  revert L. induction t as [i cs IH] using tree_ind'. intros L Hx.
  simpl. destruct (decide (x = i)) as [|Hne]; [done|].
  simpl in Hx. apply elem_of_cons in Hx as [Hx|Hx]; [done|].
  by apply labels_of_inside.
Qed.

Lemma seqZ_one m : seqZ m 1 = [m].
Proof. reflexivity. Qed.

Lemma labels_of_ends cs R :
  Forall (λ c, ∀ L, NoDup (tree_ids c) →
            tree_ids c ≫= (λ x, interval_ends (label x c L))
            ≡ₚ seqZ L (2 * zsize c)) cs →
  NoDup (cs ≫= tree_ids) →
  (cs ≫= tree_ids) ≫= (λ x, interval_ends (labels_of (label x) cs R))
  ≡ₚ seqZ R (2 * zsizes cs).
Proof.
  intros Hcs. revert R. induction Hcs as [|c cs Hc _ IH]; intros R Hnd; [done|].
  rewrite bind_cons in Hnd. apply NoDup_app in Hnd as (Hndc & Hsep & Hndcs).
  rewrite bind_cons, bind_app, zsizes_cons.
  replace (2 * (zsize c + zsizes cs)) with (2 * zsize c + 2 * zsizes cs) by lia.
  rewrite seqZ_app by (pose proof (zsize_pos c); unfold zsizes; lia).
  apply Permutation_app.
  - rewrite <- (Hc R Hndc). apply reflexive_eq, Forall_bind_ext, Forall_forall.
    intros x Hx. simpl. rewrite labels_of_outside; [done| |by apply Hsep].
    apply Forall_forall. intros c' _ L'. apply label_outside.
  - rewrite <- (IH (R + 2 * zsize c) Hndcs).
    apply reflexive_eq, Forall_bind_ext, Forall_forall.
    intros x Hx. simpl.
    destruct (labels_of_inside x cs (R + 2 * zsize c)) as [b ->]; [|done..].
    apply Forall_forall. intros c' _ L'. apply label_inside.
Qed.

Lemma label_ends t L :
  NoDup (tree_ids t) →
  tree_ids t ≫= (λ x, interval_ends (label x t L)) ≡ₚ seqZ L (2 * zsize t).
Proof.
  revert L. induction t as [i cs IH] using tree_ind'. intros L Hnd.
  change (tree_ids (T i cs)) with (i :: (cs ≫= tree_ids)) in *.
  apply NoDup_cons in Hnd as [Hi Hnd].
  rewrite bind_cons. cbn [label]. rewrite decide_True by done.
  rewrite zsize_T. cbn [interval_ends].
  erewrite Forall_bind_ext.
  2:{ apply Forall_forall. intros x Hx. rewrite decide_False; [done|].
      intros ->. by apply Hi. }
  rewrite (labels_of_ends cs (L + 1) IH Hnd).
  replace (L + 2 * (1 + zsizes cs) - 1) with (L + 1 + 2 * zsizes cs) by lia.
  replace (2 * (1 + zsizes cs)) with (1 + (2 * zsizes cs + 1)) by lia.
  assert (0 ≤ zsizes cs) by (unfold zsizes; lia).
  rewrite seqZ_app, seqZ_one by lia. simpl. constructor.
  rewrite seqZ_app, seqZ_one by lia.
  apply Permutation_cons_append.
Qed.

Lemma length_tree_ids t : length (tree_ids t) = size t.
Proof.
  induction t as [i cs IH] using tree_ind'.
  change (length (tree_ids (T i cs))) with (S (length (cs ≫= tree_ids))).
  change (size (T i cs)) with (S (sum_list (size <$> cs))). f_equal.
  induction IH as [|c cs Hc _ IHcs]; [done|].
  rewrite bind_cons, length_app, Hc, IHcs. done.
Qed.

Lemma boundaries_relabel f s :
  (∀ x, x ∈ _id <$> s → is_Some (f x)) →
  boundaries (relabel f s) = Some <$> ((_id <$> s) ≫= (λ x, interval_ends (f x))).
Proof.
  unfold boundaries, relabel. induction s as [|n s IH]; intros Hf; [done|].
  rewrite !fmap_cons, !bind_cons, fmap_app, IH.
  - f_equal. destruct (Hf (_id n)) as [[l r] ->]; [|done].
    rewrite fmap_cons. apply list_elem_of_here.
  - intros x Hx. apply Hf. rewrite fmap_cons. by apply list_elem_of_further.
Qed.

Lemma ids_filter (P : ObjectId → Prop) (Q : Node → Prop)
    `{∀ x, Decision (P x)} `{∀ n, Decision (Q n)} (s : Store) :
  (∀ n, Q n ↔ P (_id n)) →
  _id <$> filter Q s = filter P (_id <$> s).
Proof.
  intros HQ. induction s as [|n s IH]; [done|].
  rewrite fmap_cons, !filter_cons.
  destruct (decide (Q n)) as [Hq|Hq], (decide (P (_id n))) as [Hp|Hp].
  - by rewrite fmap_cons, IH.
  - destruct Hp. by apply HQ.
  - destruct Hq. by apply HQ.
  - done.
Qed.

Lemma pointing_to_elem s i n : n ∈ pointing_to s i → n ∈ s.
Proof. unfold pointing_to. by intros [_ ?]%list_elem_of_filter. Qed.

(** Every node of a tree the collection spells out is in the collection,
    as soon as the root is. *)
Lemma tree_in_store s t :
  represents s t = true → root_id t ∈ _id <$> s →
  ∀ x, x ∈ tree_ids t → x ∈ _id <$> s.
Proof.
  induction t as [i cs IH] using tree_ind'. intros Hrep Hroot x Hx.
  simpl in Hrep. apply andb_true_iff in Hrep as [Hkids Hrep].
  apply bool_decide_eq_true in Hkids.
  simpl in Hx. apply elem_of_cons in Hx as [->|Hx]; [done|].
  apply list_elem_of_bind in Hx as (c & Hxc & Hc).
  rewrite forallb_forall in Hrep. rewrite Forall_forall in IH.
  apply (IH c Hc); [by apply Hrep, list_elem_of_In| |done].
  assert (root_id c ∈ root_id <$> cs) as Hrc.
  { apply list_elem_of_fmap. by exists c. }
  rewrite <- Hkids in Hrc. apply list_elem_of_fmap in Hrc as (n & -> & Hn).
  apply list_elem_of_fmap. exists n. split; [done|].
  by eapply pointing_to_elem.
Qed.

Lemma inside_relabel t f (s : Store) :
  filter (λ n, _id n ∈ tree_ids t) (relabel f s)
  = relabel f (filter (λ n, _id n ∈ tree_ids t) s).
Proof.
  unfold relabel. apply filter_fmap_stable.
  intros n. by destruct (f (_id n)) as [[l r]|].
Qed.

Lemma outside_relabel t f (s : Store) :
  filter (λ n, _id n ∉ tree_ids t) (relabel f s)
  = relabel f (filter (λ n, _id n ∉ tree_ids t) s).
Proof.
  unfold relabel. apply filter_fmap_stable.
  intros n. by destruct (f (_id n)) as [[l r]|].
Qed.

Lemma ids_inside t (s : Store) :
  _id <$> filter (λ n, _id n ∈ tree_ids t) s
  = filter (λ x, x ∈ tree_ids t) (_id <$> s).
Proof. by apply ids_filter. Qed.

Lemma ids_outside t (s : Store) :
  _id <$> filter (λ n, _id n ∉ tree_ids t) s
  = filter (λ x, x ∉ tree_ids t) (_id <$> s).
Proof. by apply ids_filter. Qed.

(** C2.  When the parent references of a collection (identifiers unique)
    spell out a tree [t] of N distinct documents below a root that is in the
    collection, [rebuildTree(root, 1)] settles without error once the fuel
    covers the height of the tree; the boundaries it leaves on the
    documents of the tree are exactly the integers 1 .. 2N, each used once
    as some [lft] or [rgt] (the root ending at 2N); the documents outside
    the tree are untouched; and running it again on the rebuilt collection
    leaves the collection as it is. *)
Theorem rebuildTree_round_trip (s : Store) (t : tree) (root : Node) (fuel : nat) :
  NoDup (_id <$> s) →
  NoDup (tree_ids t) →
  represents s t = true →
  root_id t ∈ _id <$> s →
  _id root = root_id t →
  (height t ≤ fuel)%nat →
  ∃ s',
    rebuildTree fuel s root (Some 1)
    = Settled None s' (built root 1 (2 * Z.of_nat (size t)))
    ∧ boundaries (filter (λ n, _id n ∈ tree_ids t) s')
      ≡ₚ Some <$> seqZ 1 (2 * Z.of_nat (size t))
    ∧ filter (λ n, _id n ∉ tree_ids t) s' = filter (λ n, _id n ∉ tree_ids t) s
    ∧ ∀ again, _id again = _id root →
        rebuildTree fuel s' again (Some 1)
        = Settled None s' (built again 1 (2 * Z.of_nat (size t))).
Proof.
  intros Hnd Hndt Hrep Hin Hroot Hfuel. fold (zsize t).
  assert (1 + 2 * zsize t - 1 = 2 * zsize t) as Hend by lia.
  exists (relabel (λ x, label x t 1) s). split; [|split; [|split]].
  - by rewrite (rebuildTree_tree t fuel), Hend.
  - rewrite inside_relabel, boundaries_relabel.
    2:{ intros x Hx. apply label_inside. rewrite ids_inside in Hx.
        by apply list_elem_of_filter in Hx as [? _]. }
    assert (_id <$> filter (λ n, _id n ∈ tree_ids t) s ≡ₚ tree_ids t) as ->.
    { rewrite ids_inside. apply NoDup_Permutation; [by apply NoDup_filter|done|].
      intros x. rewrite list_elem_of_filter. split; [by intros [? _]|].
      intros Hx. split; [done|]. by eapply tree_in_store. }
    apply fmap_Permutation. by rewrite label_ends.
  - rewrite outside_relabel.
    rewrite <- (relabel_none (filter _ s)) at 2. apply relabel_ext.
    intros x Hx. apply label_outside. rewrite ids_outside in Hx.
    by apply list_elem_of_filter in Hx as [? _].
  - intros again Hagain.
    rewrite (rebuildTree_tree t fuel), Hend; try done.
    + apply settled_eq; [|done]. rewrite relabel_relabel.
      apply relabel_ext. intros x _. by destruct (label x t 1).
    + by rewrite ids_relabel.
    + by rewrite represents_relabel.
    + congruence.
Qed.

Lemma rebuildTree_round_trip_witness :
  ∃ s',
    rebuildTree 3 office michael (Some 1)
    = Settled None s' (built michael 1 (2 * Z.of_nat (size office_tree)))
    ∧ boundaries (filter (λ n, _id n ∈ tree_ids office_tree) s')
      ≡ₚ Some <$> seqZ 1 (2 * Z.of_nat (size office_tree))
    ∧ filter (λ n, _id n ∉ tree_ids office_tree) s'
      = filter (λ n, _id n ∉ tree_ids office_tree) office
    ∧ ∀ again, _id again = _id michael →
        rebuildTree 3 s' again (Some 1)
        = Settled None s' (built again 1 (2 * Z.of_nat (size office_tree))).
Proof.
  apply (rebuildTree_round_trip office office_tree michael 3).
  - by_computation.
  - by_computation.
  - vm_compute. reflexivity.
  - by_computation.
  - reflexivity.
  - vm_compute. lia.
Defined.

(** C3.  On the ten-user tree of the test suite, [rebuildTree(michael, 1)]
    settles, whatever fuel is left above the tree's height, with exactly the
    boundaries michael [1,20], meredith [2,7], kelly [3,4], creed [5,6],
    jim [8,15], phyllis [9,10], stanley [11,12], dwight [13,14],
    angela [16,19], oscar [17,18]: each child starts at its parent's running
    right boundary and the parent ends one past its last child. *)
Theorem rebuildTree_office (k : nat) :
  rebuildTree (3 + k) office michael (Some 1)
  = Settled None office_built (built michael 1 20).
Proof.
  rewrite (rebuildTree_tree office_tree).
  - apply settled_eq; vm_compute; reflexivity.
  - change (height office_tree) with 3%nat. lia.
  - by_computation.
  - vm_compute. reflexivity.
  - reflexivity.
Qed.

(** ** What the hooks read *)

Lemma parent_plain s self :
  parent s self = head (filter (λ n, Some (_id n) = parentReference self) s).
Proof.
  unfold parent, findOne, find. f_equal. apply list_filter_iff. intros n.
  unfold matches, matches_conditions; simpl. rewrite fields_hold_empty.
  rewrite !andb_true_r. apply bool_decide_eq_true.
Qed.

Lemma siblings_plain s self :
  siblings s self empty_filter
  = filter (λ n, parentReference n = parentReference self ∧ _id n ≠ _id self) s.
Proof.
  unfold siblings, find. apply list_filter_iff. intros n.
  unfold matches, matches_conditions; simpl. rewrite fields_hold_empty.
  rewrite !andb_true_r, andb_true_iff, negb_true_iff.
  rewrite bool_decide_eq_true, bool_decide_eq_false. tauto.
Qed.

Lemma parent_Some s self p :
  parent s self = Some p → p ∈ s ∧ parentReference self = Some (_id p).
Proof.
  rewrite parent_plain. intros Hp. apply head_Some_elem_of in Hp.
  apply list_elem_of_filter in Hp as [Hid Hin]. done.
Qed.

Lemma parent_ref_truthy s self p :
  parent s self = Some p → ref_truthy (parentReference self) = true.
Proof.
  intros [_ Hp]%parent_Some. unfold ref_truthy. rewrite Hp.
  by apply bool_decide_eq_true_2.
Qed.

Lemma siblings_elem s self n :
  n ∈ siblings s self empty_filter → n ∈ s.
Proof. rewrite siblings_plain. by intros [_ ?]%list_elem_of_filter. Qed.

(** ** The range updates *)

Lemma matches_lft_gt options self m n :
  matches_conditions (updateConditions options (with_lft op_gt m no_conditions) self) n
  = same_partition options n self && js_gt (lft n) m.
Proof.
  unfold updateConditions, same_partition.
  destruct (groupingKey options) as [key|]; [case_bool_decide|];
    unfold matches_conditions, with_field, with_lft, no_conditions;
    cbn [c_id c_parent c_lft c_rgt c_or c_fields opt_holds andb cmp];
    rewrite ?fields_hold_singleton, ?fields_hold_empty, ?andb_true_r;
    [apply andb_comm|done..].
Qed.

Lemma matches_rgt_gt options self m n :
  matches_conditions (updateConditions options (with_rgt op_gt m no_conditions) self) n
  = same_partition options n self && js_gt (rgt n) m.
Proof.
  unfold updateConditions, same_partition.
  destruct (groupingKey options) as [key|]; [case_bool_decide|];
    unfold matches_conditions, with_field, with_rgt, no_conditions;
    cbn [c_id c_parent c_lft c_rgt c_or c_fields opt_holds andb cmp];
    rewrite ?fields_hold_singleton, ?fields_hold_empty, ?andb_true_r;
    [apply andb_comm|done..].
Qed.

Lemma set_bounds_same n : set_rgt (rgt n) (set_lft (lft n) n) = n.
Proof. by destruct n. Qed.

(** The two passes of a hook, one after the other, amount to the single
    update of the specification. *)
Lemma shift_after_shifted options s self m delta :
  shift_after options s self m delta = shifted options self m delta <$> s.
Proof.
  unfold shift_after, updateMany. rewrite <- list_fmap_compose.
  apply list_fmap_ext. intros _ n _. cbn [compose]. unfold shifted.
  rewrite matches_lft_gt.
  destruct (same_partition options n self && js_gt (lft n) m) eqn:Hl.
  - rewrite matches_rgt_gt. cbn [inc set_lft set_rgt fields rgt lft].
    replace (same_partition options (set_lft (js_add (lft n) delta) n) self)
      with (same_partition options n self) by done.
    by destruct (same_partition options n self && js_gt (rgt n) m).
  - rewrite matches_rgt_gt.
    destruct (same_partition options n self && js_gt (rgt n) m); [done|].
    by rewrite set_bounds_same.
Qed.

(** ** The hooks, branch by branch *)

Lemma pre_save_no_parent options s self :
  parent s self = None → pre_save options s self = next s self.
Proof. intros Hp. unfold pre_save. rewrite Hp. by destruct (ref_truthy _). Qed.

Lemma pre_save_parent_unbuilt options s self p :
  parent s self = Some p → has_bounds p = false →
  pre_save options s self = next s self.
Proof.
  intros Hp Hb. unfold pre_save. rewrite Hp, Hb. by destruct (ref_truthy _).
Qed.

Lemma pre_save_sibling_unbuilt options s self p :
  parent s self = Some p → has_bounds p = true →
  forallb has_bounds (siblings s self empty_filter) = false →
  pre_save options s self = next s (set_lvl (js_add (lvl p) 1) self).
Proof.
  intros Hp Hb Hs. unfold pre_save.
  rewrite (parent_ref_truthy _ _ _ Hp), Hp, Hb.
  change (siblings s (set_lvl (js_add (lvl p) 1) self) empty_filter)
    with (siblings s self empty_filter).
  by rewrite Hs.
Qed.

Lemma pre_save_built options s self p :
  parent s self = Some p → has_bounds p = true →
  forallb has_bounds (siblings s self empty_filter) = true →
  pre_save options s self
  = let maxRgt := maxRgt_of (siblings s self empty_filter) p in
    next (shifted options self maxRgt 2 <$> s)
      (set_rgt (js_add maxRgt 2)
         (set_lft (js_add maxRgt 1) (set_lvl (js_add (lvl p) 1) self))).
Proof.
  intros Hp Hb Hs. unfold pre_save.
  rewrite (parent_ref_truthy _ _ _ Hp), Hp, Hb.
  change (siblings s (set_lvl (js_add (lvl p) 1) self) empty_filter)
    with (siblings s self empty_filter).
  rewrite Hs. cbn zeta. by rewrite shift_after_shifted.
Qed.

Lemma pre_remove_no_parent options s self :
  parent s self = None → pre_remove options s self = next s self.
Proof. intros Hp. unfold pre_remove. rewrite Hp. by destruct (ref_truthy _). Qed.

Lemma pre_remove_parent_unbuilt options s self p :
  parent s self = Some p → has_bounds p = false →
  pre_remove options s self = next s self.
Proof.
  intros Hp Hb. unfold pre_remove. rewrite Hp, Hb. by destruct (ref_truthy _).
Qed.

Lemma pre_remove_sibling_unbuilt options s self p :
  parent s self = Some p →
  forallb has_bounds (siblings s self empty_filter) = false →
  pre_remove options s self = next s self.
Proof.
  intros Hp Hs. unfold pre_remove. rewrite Hp, Hs.
  by destruct (ref_truthy _), (has_bounds p).
Qed.

Lemma pre_remove_built options s self p :
  parent s self = Some p → has_bounds p = true →
  forallb has_bounds (siblings s self empty_filter) = true →
  pre_remove options s self
  = next (shifted options self (maxRgt_of (siblings s self empty_filter) p) (-2) <$> s)
      self.
Proof.
  intros Hp Hb Hs. unfold pre_remove.
  rewrite (parent_ref_truthy _ _ _ Hp), Hp, Hb, Hs. cbn zeta.
  by rewrite shift_after_shifted.
Qed.

Lemma forallb_false_elem {A} (f : A → bool) (l : list A) (x : A) :
  x ∈ l → f x = false → forallb f l = false.
Proof.
  intros Hx Hf. destruct (forallb f l) eqn:Hall; [|done].
  rewrite forallb_forall in Hall. rewrite <- Hf. symmetry. apply Hall.
  by apply list_elem_of_In.
Qed.

Lemma bounds_unset_falsy n : bounds_unset n → has_bounds n = false.
Proof.
  unfold has_bounds. intros [H|H]; rewrite H; [done|]. apply andb_false_r.
Qed.

(** Both hooks do nothing to the collection, and leave the boundaries of
    their own document alone, as soon as the parent or one sibling fails the
    truthiness test. *)
Lemma hooks_skip options s self p :
  parent s self = Some p →
  has_bounds p = false
  ∨ (∃ sib, sib ∈ siblings s self empty_filter ∧ has_bounds sib = false) →
  (hook_store (pre_save options s self) = s
   ∧ hook_error (pre_save options s self) = None
   ∧ lft (hook_doc (pre_save options s self)) = lft self
   ∧ rgt (hook_doc (pre_save options s self)) = rgt self)
  ∧ (hook_store (pre_remove options s self) = s
     ∧ hook_error (pre_remove options s self) = None
     ∧ hook_doc (pre_remove options s self) = self).
Proof.
  intros Hp Hcase. destruct (has_bounds p) eqn:Hb.
  - destruct Hcase as [|(sib & Hsib & Hunset)]; [done|].
    pose proof (forallb_false_elem _ _ _ Hsib Hunset) as Hall.
    rewrite (pre_save_sibling_unbuilt _ _ _ _ Hp Hb Hall).
    by rewrite (pre_remove_sibling_unbuilt _ _ _ _ Hp Hall).
  - rewrite (pre_save_parent_unbuilt _ _ _ _ Hp Hb).
    by rewrite (pre_remove_parent_unbuilt _ _ _ _ Hp Hb).
Qed.

(** C9.  When the parent of the document being created or removed has a
    boundary unset, or one of its existing siblings has, neither hook
    performs a range update nor hands an error to [next]: the collection is
    as it was and the document keeps the [lft]/[rgt] it came with (none, for
    a new document). *)
Theorem hooks_tolerate_unbuilt_tree (options : INestedSetOptions) (s : Store)
    (self p : Node) :
  parent s self = Some p →
  bounds_unset p
  ∨ (∃ sib, sib ∈ siblings s self empty_filter ∧ bounds_unset sib) →
  (hook_store (pre_save options s self) = s
   ∧ hook_error (pre_save options s self) = None
   ∧ lft (hook_doc (pre_save options s self)) = lft self
   ∧ rgt (hook_doc (pre_save options s self)) = rgt self)
  ∧ (hook_store (pre_remove options s self) = s
     ∧ hook_error (pre_remove options s self) = None
     ∧ hook_doc (pre_remove options s self) = self).
Proof.
  intros Hp Hcase. apply (hooks_skip options s self p Hp).
  destruct Hcase as [Hu|(sib & Hsib & Hu)].
  - left. by apply bounds_unset_falsy.
  - right. exists sib. split; [done|]. by apply bounds_unset_falsy.
Qed.

Lemma hooks_tolerate_unbuilt_tree_witness :
  (hook_store (pre_save no_options office meredith) = office
   ∧ hook_error (pre_save no_options office meredith) = None
   ∧ lft (hook_doc (pre_save no_options office meredith)) = None
   ∧ rgt (hook_doc (pre_save no_options office meredith)) = None)
  ∧ (hook_store (pre_remove no_options office meredith) = office
     ∧ hook_error (pre_remove no_options office meredith) = None
     ∧ hook_doc (pre_remove no_options office meredith) = meredith).
Proof.
  apply (hooks_tolerate_unbuilt_tree no_options office meredith michael).
  - vm_compute. reflexivity.
  - left. left. reflexivity.
Defined.

Lemma isLeaf_zero_lft z : lft z = Some 0 → isLeaf z = JNumber 0.
Proof. unfold isLeaf. by intros ->. Qed.

(** C10.  A boundary of 0 counts as unset.  For every document whose [lft]
    is 0, [isLeaf] hands back that 0, a falsy value, whatever [rgt] is
    (also when [rgt - lft] is 1); and when such a document is the parent or
    a sibling of the document being created or removed, both hooks skip all
    boundary work. *)
Theorem zero_boundary_counts_as_unset (z : Node) :
  lft z = Some 0 →
  isLeaf z = JNumber 0
  ∧ js_truthy (isLeaf z) = false
  ∧ ∀ options s self p,
      parent s self = Some p →
      z = p ∨ z ∈ siblings s self empty_filter →
      (hook_store (pre_save options s self) = s
       ∧ hook_error (pre_save options s self) = None
       ∧ lft (hook_doc (pre_save options s self)) = lft self
       ∧ rgt (hook_doc (pre_save options s self)) = rgt self)
      ∧ (hook_store (pre_remove options s self) = s
         ∧ hook_error (pre_remove options s self) = None
         ∧ hook_doc (pre_remove options s self) = self).
Proof.
  intros Hz. rewrite (isLeaf_zero_lft z Hz). split; [done|]. split; [done|].
  intros options s self p Hp Hcase. apply (hooks_skip options s self p Hp).
  assert (has_bounds z = false) as Hfalsy by (unfold has_bounds; by rewrite Hz).
  destruct Hcase as [<-|Hsib]; [by left|]. right. by exists z.
Qed.

Lemma zero_boundary_counts_as_unset_witness :
  rebuildTree 1 [michael] michael (Some 0)
  = Settled None [built michael 0 1] (built michael 0 1)
  ∧ js_sub (rgt (built michael 0 1)) (lft (built michael 0 1)) = Some 1
  ∧ isLeaf (built michael 0 1) = JNumber 0
  ∧ hook_store (pre_save no_options [built michael 0 1] meredith)
    = [built michael 0 1]
  ∧ lft (hook_doc (pre_save no_options [built michael 0 1] meredith)) = None.
Proof.
  destruct (zero_boundary_counts_as_unset (built michael 0 1) eq_refl)
    as (Hleaf & _ & Hhooks).
  destruct (Hhooks no_options [built michael 0 1] meredith (built michael 0 1))
    as [(Hstore & _ & Hlft & _) _].
  - vm_compute. reflexivity.
  - left. reflexivity.
  - split; [vm_compute; reflexivity|]. split; [reflexivity|].
    split; [exact Hleaf|]. split; [exact Hstore|exact Hlft].
Defined.

(** ** maxRgt *)

Lemma fold_max_spec nodes : ∀ m0 : Z,
  ∃ z, foldl (λ maxRgt node, if js_gt (rgt node) maxRgt then rgt node else maxRgt)
         (Some m0) nodes = Some z
       ∧ m0 ≤ z
       ∧ (∀ n, n ∈ nodes → js_gt (rgt n) (Some z) = false)
       ∧ (z = m0 ∨ ∃ n, n ∈ nodes ∧ rgt n = Some z).
Proof.
  induction nodes as [|n nodes IH]; intros m0; cbn [foldl].
  - exists m0. split_and!; [done|lia| |by left].
    intros n Hn. by apply elem_of_nil in Hn.
  - destruct (js_gt (rgt n) (Some m0)) eqn:Hgt.
    + destruct (rgt n) as [r|] eqn:Hr; [|done].
      unfold js_gt, js_lt in Hgt. apply Z.ltb_lt in Hgt.
      destruct (IH r) as (z & Hz & Hle & Hub & Hin). exists z.
      split_and!; [done|lia| |].
      * intros n' [->|Hn']%elem_of_cons; [|by apply Hub].
        rewrite Hr. unfold js_gt, js_lt. apply Z.ltb_ge. lia.
      * right. destruct Hin as [->|(n' & Hn' & Hrn')].
        -- exists n. split; [apply list_elem_of_here|done].
        -- exists n'. split; [by apply list_elem_of_further|done].
    + destruct (IH m0) as (z & Hz & Hle & Hub & Hin). exists z.
      split_and!; [done|lia| |].
      * intros n' [->|Hn']%elem_of_cons; [|by apply Hub].
        destruct (rgt n) as [r|]; [|done].
        unfold js_gt, js_lt in *. apply Z.ltb_ge in Hgt. apply Z.ltb_ge. lia.
      * destruct Hin as [->|(n' & Hn' & Hrn')]; [by left|right].
        exists n'. split; [by apply list_elem_of_further|done].
Qed.

Lemma forallb_of_Forall {A} (f : A → bool) (P : A → Prop) (l : list A) :
  (∀ x, P x → f x = true) → Forall P l → forallb f l = true.
Proof.
  intros HP Hl. apply forallb_forall. intros x Hx%list_elem_of_In.
  apply HP. by eapply Forall_forall in Hl.
Qed.

(** C1.  When the parent and every existing sibling of the document being
    created have their boundaries set (to numbers of the data model's
    range), the creation hook sets the document's [lvl] to the parent's plus
    one, takes as [maxRgt] the largest [rgt] among the siblings, or the
    parent's [lft] when there is none, moves by +2 every [lft] above
    [maxRgt] and, independently, every [rgt] above [maxRgt] within the
    document's partition, and gives the document [maxRgt + 1] and
    [maxRgt + 2]. *)
Theorem pre_save_makes_room (options : INestedSetOptions) (s : Store)
    (self p : Node) :
  parent s self = Some p →
  has_bounds p = true →
  Forall (λ n, has_bounds n = true ∧ nonneg (rgt n) = true)
    (siblings s self empty_filter) →
  ∃ maxRgt : Z,
    (siblings s self empty_filter = [] → lft p = Some maxRgt)
    ∧ (siblings s self empty_filter ≠ [] →
       (∃ n, n ∈ siblings s self empty_filter ∧ rgt n = Some maxRgt)
       ∧ ∀ n r, n ∈ siblings s self empty_filter → rgt n = Some r → r ≤ maxRgt)
    ∧ lvl (hook_doc (pre_save options s self)) = js_add (lvl p) 1
    ∧ hook_store (pre_save options s self)
      = shifted options self (Some maxRgt) 2 <$> s
    ∧ lft (hook_doc (pre_save options s self)) = Some (maxRgt + 1)
    ∧ rgt (hook_doc (pre_save options s self)) = Some (maxRgt + 2)
    ∧ hook_error (pre_save options s self) = None.
Proof.
  intros Hp Hb Hsibs.
  rewrite (pre_save_built options s self p Hp Hb)
    by (eapply forallb_of_Forall; [|exact Hsibs]; by intros n [? _]).
  cbn zeta. destruct (siblings s self empty_filter) as [|n nodes] eqn:Hnodes.
  - apply andb_true_iff in Hb as [(z & Hz & _)%truthy_Some _].
    exists z. unfold maxRgt_of. cbn [length bool_decide decide_rel].
    rewrite bool_decide_eq_true_2 by done. rewrite Hz.
    split_and!; done.
  - destruct (fold_max_spec (n :: nodes) 0) as (z & Hz & Hle & Hub & Hin).
    exists z. unfold maxRgt_of. rewrite bool_decide_eq_false_2 by done.
    rewrite Hz. split_and!; try done. intros _. split.
    + destruct Hin as [->|Hin]; [|done]. exfalso.
      apply Forall_cons in Hsibs as [[Hbn Hnn] _].
      apply andb_true_iff in Hbn as [_ Hrn].
      destruct (truthy_pos _ Hrn Hnn) as (r & Hr & Hpos).
      specialize (Hub n (list_elem_of_here _ _)). rewrite Hr in Hub.
      unfold js_gt, js_lt in Hub. apply Z.ltb_ge in Hub. lia.
    + intros n' r Hn' Hr. specialize (Hub n' Hn'). rewrite Hr in Hub.
      unfold js_gt, js_lt in Hub. by apply Z.ltb_ge in Hub.
Qed.

Lemma pre_save_makes_room_witness :
  ∃ maxRgt : Z,
    (siblings office_built toby empty_filter = [] →
     lft (built jim 8 15) = Some maxRgt)
    ∧ (siblings office_built toby empty_filter ≠ [] →
       (∃ n, n ∈ siblings office_built toby empty_filter ∧ rgt n = Some maxRgt)
       ∧ ∀ n r, n ∈ siblings office_built toby empty_filter →
                rgt n = Some r → r ≤ maxRgt)
    ∧ lvl (hook_doc (pre_save no_options office_built toby))
      = js_add (lvl (built jim 8 15)) 1
    ∧ hook_store (pre_save no_options office_built toby)
      = shifted no_options toby (Some maxRgt) 2 <$> office_built
    ∧ lft (hook_doc (pre_save no_options office_built toby)) = Some (maxRgt + 1)
    ∧ rgt (hook_doc (pre_save no_options office_built toby)) = Some (maxRgt + 2)
    ∧ hook_error (pre_save no_options office_built toby) = None.
Proof.
  apply (pre_save_makes_room no_options office_built toby (built jim 8 15)).
  - vm_compute. reflexivity.
  - reflexivity.
  - by_computation.
Defined.

(** ** Removal after creation *)

Lemma parent_app s d :
  parent (s ++ [d]) d
  = match parent s d with
    | Some p => Some p
    | None => if decide (Some (_id d) = parentReference d) then Some d else None
    end.
Proof.
  rewrite !parent_plain, filter_app.
  destruct (filter _ s) as [|p ps]; [|done]. simpl.
  rewrite filter_cons, filter_nil. by destruct (decide _).
Qed.

Lemma siblings_app s d :
  siblings (s ++ [d]) d empty_filter = siblings s d empty_filter.
Proof.
  rewrite !siblings_plain, filter_app, filter_cons_False, filter_nil.
  - apply app_nil_r.
  - by intros [_ ?].
Qed.

Lemma parent_fmap g s d :
  (∀ n, _id (g n) = _id n) → parent (g <$> s) d = g <$> parent s d.
Proof.
  intros Hg. rewrite !parent_plain, filter_fmap_stable.
  - by destruct (filter _ s).
  - intros n. by rewrite Hg.
Qed.

Lemma siblings_fmap g s d :
  (∀ n, _id (g n) = _id n) →
  (∀ n, parentReference (g n) = parentReference n) →
  siblings (g <$> s) d empty_filter = g <$> siblings s d empty_filter.
Proof.
  intros Hg Hp. rewrite !siblings_plain. apply filter_fmap_stable.
  intros n. by rewrite Hg, Hp.
Qed.

Lemma delete_appended s d :
  _id d ∉ _id <$> s → delete_by_id (s ++ [d]) (_id d) = s.
Proof.
  intros Hfresh. unfold delete_by_id.
  rewrite filter_app, filter_cons_False, filter_nil, app_nil_r by (by intros ?).
  induction s as [|n s IH]; [done|].
  rewrite fmap_cons in Hfresh. apply not_elem_of_cons in Hfresh as [Hn Hs].
  rewrite filter_cons_True by done. f_equal. by apply IH.
Qed.

Lemma has_bounds_shifted options self m n :
  data_model n = true → has_bounds n = true →
  has_bounds (shifted options self m 2 n) = true.
Proof.
  unfold data_model, has_bounds.
  intros [Hnl Hnr]%andb_true_iff [Hl Hr]%andb_true_iff.
  destruct (truthy_pos _ Hl Hnl) as (l & Hlft & Hlpos).
  destruct (truthy_pos _ Hr Hnr) as (r & Hrgt & Hrpos).
  unfold shifted. cbn [lft rgt set_lft set_rgt]. rewrite Hlft, Hrgt.
  apply andb_true_iff.
  split; [destruct (_ && js_gt (Some l) m)|destruct (_ && js_gt (Some r) m)];
    simpl; apply negb_true_iff, Z.eqb_neq; lia.
Qed.

Lemma js_gt_irrefl v : js_gt v v = false.
Proof. destruct v as [z|]; [|done]. apply Z.ltb_irrefl. Qed.

Lemma shifted_undo options self m n :
  shifted options self m (-2) (shifted options self m 2 n) = n.
Proof.
  destruct n as [i pr l r lv f]. unfold shifted.
  cbn [lft rgt set_lft set_rgt _id parentReference lvl fields].
  change (same_partition options (mkNode i pr _ _ lv f) self)
    with (same_partition options (mkNode i pr l r lv f) self).
  destruct (same_partition options _ self); cbn [andb]; [|done].
  assert (∀ v, (if js_gt (if js_gt v m then js_add v 2 else v) m
                then js_add (if js_gt v m then js_add v 2 else v) (-2)
                else (if js_gt v m then js_add v 2 else v)) = v) as Hundo.
  { intros [v|]; [|by destruct m]. destruct m as [z|]; [|done].
    unfold js_gt, js_lt, js_add.
    destruct (z <? v) eqn:Hv; [|by rewrite Hv].
    apply Z.ltb_lt in Hv. simpl.
    rewrite (proj2 (Z.ltb_lt z (v + 2))) by lia. f_equal. lia. }
  by rewrite !Hundo.
Qed.

Lemma fold_max_fmap (g : Node → Node) nodes m0 :
  (∀ n, n ∈ nodes → rgt (g n) = rgt n) →
  foldl (λ maxRgt node, if js_gt (rgt node) maxRgt then rgt node else maxRgt)
    m0 (g <$> nodes)
  = foldl (λ maxRgt node, if js_gt (rgt node) maxRgt then rgt node else maxRgt)
      m0 nodes.
Proof.
  revert m0. induction nodes as [|n nodes IH]; intros m0 Hg; [done|].
  cbn [fmap list_fmap foldl]. rewrite Hg by apply list_elem_of_here.
  apply IH. intros n' Hn'. apply Hg. by apply list_elem_of_further.
Qed.

Lemma rgt_shifted_below options self m delta n :
  js_gt (rgt n) m = false → rgt (shifted options self m delta n) = rgt n.
Proof.
  intros Hn. unfold shifted. cbn [rgt set_rgt]. by rewrite Hn, andb_false_r.
Qed.

Lemma lft_shifted_below options self m delta n :
  js_gt (lft n) m = false → lft (shifted options self m delta n) = lft n.
Proof.
  intros Hn. unfold shifted. cbn [lft set_lft set_rgt]. by rewrite Hn, andb_false_r.
Qed.

(** The hooks' [maxRgt] is the same before and after the creation hook's
    own update. *)
Lemma maxRgt_of_shifted options self nodes p :
  maxRgt_of (shifted options self (maxRgt_of nodes p) 2 <$> nodes)
    (shifted options self (maxRgt_of nodes p) 2 p)
  = maxRgt_of nodes p.
Proof.
  unfold maxRgt_of at 1 4. rewrite length_fmap. case_bool_decide as Hlen.
  - apply lft_shifted_below. unfold maxRgt_of.
    rewrite bool_decide_eq_true_2 by done. apply js_gt_irrefl.
  - unfold maxRgt_of. rewrite bool_decide_eq_false_2 by done.
    destruct (fold_max_spec nodes 0) as (z & Hz & _ & Hub & _).
    apply fold_max_fmap. intros n Hn. apply rgt_shifted_below.
    rewrite Hz. by apply Hub.
Qed.

(** C4.  Creating a document and removing it straight away gives back the
    collection exactly as it was: the removal hook finds the [maxRgt] the
    creation hook used, and its -2 update undoes the +2 update document by
    document.  The collection's boundaries are in the data model's range,
    the new document's identifier is fresh and it comes without
    boundaries. *)
Theorem remove_undoes_save (options : INestedSetOptions) (s : Store) (doc : Node) :
  Forall (λ n, data_model n = true) s →
  _id doc ∉ _id <$> s →
  has_bounds doc = false →
  remove options (save options s doc).1 (save options s doc).2 = s.
Proof.
  intros Hdm Hfresh Hdoc. unfold save, remove. cbn [fst snd].
  destruct (parent s doc) as [p|] eqn:Hp.
  2:{ rewrite pre_save_no_parent by done. cbn [hook_store hook_doc next].
      assert (pre_remove options (s ++ [doc]) doc = next (s ++ [doc]) doc) as ->.
      { destruct (decide (Some (_id doc) = parentReference doc)) as [Hself|Hself].
        - apply pre_remove_parent_unbuilt with doc; [|done].
          by rewrite parent_app, Hp, decide_True.
        - apply pre_remove_no_parent. by rewrite parent_app, Hp, decide_False. }
      by apply delete_appended. }
  destruct (has_bounds p) eqn:Hb.
  2:{ rewrite (pre_save_parent_unbuilt _ _ _ _ Hp Hb).
      cbn [hook_store hook_doc next].
      rewrite (pre_remove_parent_unbuilt options (s ++ [doc]) doc p).
      - by apply delete_appended.
      - by rewrite parent_app, Hp.
      - done. }
  destruct (forallb has_bounds (siblings s doc empty_filter)) eqn:Hs.
  2:{ rewrite (pre_save_sibling_unbuilt _ _ _ _ Hp Hb Hs).
      cbn [hook_store hook_doc next].
      set (d := set_lvl (js_add (lvl p) 1) doc).
      rewrite (pre_remove_sibling_unbuilt options (s ++ [d]) d p).
      - by apply (delete_appended s d).
      - rewrite parent_app. change (parent s d) with (parent s doc). by rewrite Hp.
      - by rewrite siblings_app. }
  rewrite (pre_save_built _ _ _ _ Hp Hb Hs). cbn zeta.
  cbn [hook_store hook_doc next].
  set (m := maxRgt_of (siblings s doc empty_filter) p).
  set (d := set_rgt (js_add m 2) (set_lft (js_add m 1) (set_lvl (js_add (lvl p) 1) doc))).
  assert (parent ((shifted options doc m 2 <$> s) ++ [d]) d
          = Some (shifted options doc m 2 p)) as Hp'.
  { rewrite parent_app.
    change (parent (shifted options doc m 2 <$> s) d)
      with (parent (shifted options doc m 2 <$> s) doc).
    by rewrite parent_fmap, Hp. }
  assert (siblings ((shifted options doc m 2 <$> s) ++ [d]) d empty_filter
          = shifted options doc m 2 <$> siblings s doc empty_filter) as Hsib'.
  { rewrite siblings_app. by rewrite siblings_fmap. }
  rewrite (pre_remove_built options _ d _ Hp').
  - cbn [hook_store next]. rewrite Hsib'. clear Hp' Hsib'. subst m.
    rewrite maxRgt_of_shifted.
    set (m := maxRgt_of (siblings s doc empty_filter) p).
    rewrite fmap_app, <- list_fmap_compose.
    change (shifted options d) with (shifted options doc).
    rewrite (list_fmap_ext _ id s) by (intros i x _; apply shifted_undo).
    rewrite list_fmap_id.
    apply (delete_appended s (shifted options d m (-2) d)). done.
  - apply has_bounds_shifted; [|done].
    apply parent_Some in Hp as [Hin _]. by eapply Forall_forall in Hdm.
  - rewrite Hsib'. apply forallb_forall. intros n' Hn'%list_elem_of_In.
    apply list_elem_of_fmap in Hn' as (n & -> & Hn).
    rewrite forallb_forall in Hs.
    apply has_bounds_shifted; [|by apply Hs, list_elem_of_In].
    apply siblings_elem in Hn. by eapply Forall_forall in Hdm.
Qed.

Lemma remove_undoes_save_witness :
  remove no_options (save no_options office_built joe).1
    (save no_options office_built joe).2 = office_built.
Proof.
  apply (remove_undoes_save no_options office_built joe).
  - by_computation.
  - by_computation.
  - reflexivity.
Defined.

(** ** The removed document's own record *)

Lemma same_partition_refl options n : same_partition options n n = true.
Proof.
  unfold same_partition. destruct (groupingKey options) as [key|]; [|done].
  case_bool_decide; [|done]. by apply bool_decide_eq_true_2.
Qed.

(** C8, as the claim words it, fails on the built test tree: removing oscar,
    angela's only child, [maxRgt] is angela's [lft] 16, and oscar's stored
    record, with [lft] 17 and [rgt] 18 above it, is moved to 15 and 16 by
    the two range updates; removing creed, whose sibling kelly ends at 4,
    moves creed's stored record from 5 and 6 to 3 and 4. *)
Lemma removed_record_is_shifted :
  office_built !! 9%nat = Some (built oscar 17 18)
  ∧ hook_store (pre_remove no_options office_built (built oscar 17 18)) !! 9%nat
    = Some (built oscar 15 16)
  ∧ office_built !! 5%nat = Some (built creed 5 6)
  ∧ hook_store (pre_remove no_options office_built (built creed 5 6)) !! 5%nat
    = Some (built creed 3 4).
Proof. vm_compute. done. Qed.

(** C8, amended.  The removal hook leaves the in-memory document it runs on
    untouched, but its range updates do not exempt that document's stored
    record: once the parent and the siblings pass the boundary test, the
    record loses 2 on [lft] exactly when its [lft] exceeds [maxRgt], and 2 on
    [rgt] exactly when its [rgt] does, where [maxRgt] is the parent's [lft]
    when there is no sibling. *)
Theorem pre_remove_does_not_exempt_self (options : INestedSetOptions) (s : Store)
    (self p : Node) (i : nat) :
  s !! i = Some self →
  parent s self = Some p →
  has_bounds p = true →
  forallb has_bounds (siblings s self empty_filter) = true →
  ∃ stored maxRgt,
    hook_store (pre_remove options s self) !! i = Some stored
    ∧ maxRgt = maxRgt_of (siblings s self empty_filter) p
    ∧ (siblings s self empty_filter = [] → maxRgt = lft p)
    ∧ lft stored = (if js_gt (lft self) maxRgt then js_add (lft self) (-2) else lft self)
    ∧ rgt stored = (if js_gt (rgt self) maxRgt then js_add (rgt self) (-2) else rgt self)
    ∧ hook_doc (pre_remove options s self) = self.
Proof.
  intros Hi Hp Hb Hs.
  exists (shifted options self (maxRgt_of (siblings s self empty_filter) p) (-2) self).
  exists (maxRgt_of (siblings s self empty_filter) p).
  rewrite (pre_remove_built _ _ _ _ Hp Hb Hs). cbn [hook_store hook_doc next].
  split_and!; try done.
  - by rewrite list_lookup_fmap, Hi.
  - by intros ->.
  - unfold shifted. cbn [lft set_lft set_rgt]. by rewrite same_partition_refl.
  - unfold shifted. cbn [rgt set_lft set_rgt]. by rewrite same_partition_refl.
Qed.

Lemma pre_remove_does_not_exempt_self_witness :
  ∃ stored maxRgt,
    hook_store (pre_remove no_options office_built (built oscar 17 18)) !! 9%nat
    = Some stored
    ∧ maxRgt = maxRgt_of (siblings office_built (built oscar 17 18) empty_filter)
                 (built angela 16 19)
    ∧ (siblings office_built (built oscar 17 18) empty_filter = [] →
       maxRgt = lft (built angela 16 19))
    ∧ lft stored = (if js_gt (lft (built oscar 17 18)) maxRgt
                    then js_add (lft (built oscar 17 18)) (-2)
                    else lft (built oscar 17 18))
    ∧ rgt stored = (if js_gt (rgt (built oscar 17 18)) maxRgt
                    then js_add (rgt (built oscar 17 18)) (-2)
                    else rgt (built oscar 17 18))
    ∧ hook_doc (pre_remove no_options office_built (built oscar 17 18))
      = built oscar 17 18.
Proof.
  apply (pre_remove_does_not_exempt_self no_options office_built
           (built oscar 17 18) (built angela 16 19) 9).
  - reflexivity.
  - vm_compute. reflexivity.
  - reflexivity.
  - vm_compute. reflexivity.
Defined.

(** ** rebuildTree and the missing root *)

Lemma updateOne_absent s i l r :
  (∀ n, n ∈ s → _id n ≠ i) → updateOne s i l r = s.
Proof.
  induction s as [|n s IH]; intros Habs; [done|]. simpl.
  rewrite bool_decide_eq_false_2 by (apply Habs, list_elem_of_here).
  f_equal. apply IH. intros n' Hn'. by apply Habs, list_elem_of_further.
Qed.

Lemma filter_none {A} (P : A → Prop) `{∀ x, Decision (P x)} (l : list A) :
  (∀ x, x ∈ l → ¬ P x) → filter P l = [].
Proof.
  induction l as [|x l IH]; intros Hno; [done|].
  rewrite filter_cons_False by apply Hno, list_elem_of_here.
  apply IH. intros y Hy. by apply Hno, list_elem_of_further.
Qed.

(** C6, as the claim words it, fails: michael is not in the collection, and
    [rebuildTree(michael, 1)] settles without any error, the collection
    untouched. *)
Lemma rebuildTree_missing_root_settles :
  (∀ n, n ∈ [oscar] → _id n ≠ _id michael)
  ∧ rebuildTree 1 [oscar] michael (Some 1)
    = Settled None [oscar] (built michael 1 2).
Proof.
  split; [|vm_compute; reflexivity].
  intros n Hn. apply list_elem_of_singleton in Hn as ->. done.
Qed.

(** C6, amended.  [rebuildTree] never looks its root up by identifier and
    never settles with the not-found error: that error is kept for a
    children lookup that yields no list, and the lookup always yields one.
    When the root is not in the collection and no document names it as its
    parent, the call settles without error and leaves the collection as it
    was, only the in-memory root receiving [left] and [left + 1]. *)
Theorem rebuildTree_never_not_found (fuel : nat) (s : Store) (parent : Node)
    (left : num) :
  (∀ e s' parent', rebuildTree fuel s parent left ≠ Settled (Some e) s' parent')
  ∧ ((∀ n, n ∈ s → _id n ≠ _id parent ∧ parentReference n ≠ Some (_id parent)) →
     rebuildTree (S fuel) s parent left
     = Settled None s (set_rgt (js_add left 1) (set_lft left parent))).
Proof.
  split.
  - intros e s' parent'. destruct fuel as [|fuel]; [done|].
    cbn [rebuildTree]. unfold array_truthy. cbn [negb].
    case_bool_decide; [|done].
    by destruct (forEachSeries _ _ _) as [[s1 p1]|].
  - intros Habs. cbn [rebuildTree]. unfold array_truthy. cbn [negb].
    rewrite find_children_pointing. cbn [_id set_rgt set_lft].
    unfold pointing_to. rewrite filter_none by (intros n Hn; by apply Habs).
    cbn [length]. rewrite bool_decide_eq_false_2 by lia.
    rewrite updateOne_absent; [done|]. intros n Hn. by apply Habs.
Qed.

(** ** The queries and the grouping key *)

(** C7, as the claim words it, fails: with the grouping key [org]
    configured, the ancestors of a document of organisation 1 include a
    document of organisation 2, and so do its children, as a query and as
    [rebuildTree] looks them up. *)
Lemma queries_cross_partitions :
  ancestors two_orgs department empty_filter = [foreign_group]
  ∧ same_partition by_org foreign_group department = false
  ∧ children two_orgs department empty_filter = [foreign_child]
  ∧ find_children two_orgs department = [foreign_child]
  ∧ same_partition by_org foreign_child department = false.
Proof. vm_compute. done. Qed.

Lemma inclusive_bound (field bound : num) :
  (if missing bound then missing field else js_le field bound) = true
  ↔ js_le field bound = true ∨ (bound = None ∧ field = None).
Proof.
  destruct bound as [b|], field as [f|]; simpl; split; intros H;
    try (by left); try (by right); by destruct H as [H|[H1 H2]].
Qed.

Lemma inclusive_bound' (field bound : num) :
  (if missing bound then missing field else js_le bound field) = true
  ↔ js_le bound field = true ∨ (bound = None ∧ field = None).
Proof.
  destruct bound as [b|], field as [f|]; simpl; split; intros H;
    try (by left); try (by right); by destruct H as [H|[H1 H2]].
Qed.

Ltac unfold_query :=
  unfold find; rewrite list_elem_of_filter;
  unfold matches, set_in, matches_conditions; simpl;
  rewrite fields_hold_empty, ?andb_true_r, ?orb_false_r;
  unfold js_gt, js_ge.

(** C7, amended.  Whatever grouping key is configured, the relationship
    queries and the children lookup of [rebuildTree] put no grouping-key
    condition into their filter: called without caller filters they return
    exactly the documents of the collection that meet the boundary, parent
    or identifier condition of the query, whatever partition they are in.
    For [selfAndAncestors] and [selfAndDescendants] a boundary that the
    querying document lacks is met by the documents that lack it too. *)
Theorem queries_not_scoped (s : Store) (self x : Node) :
  (x ∈ ancestors s self empty_filter
   ↔ x ∈ s ∧ js_lt (lft x) (lft self) = true ∧ js_gt (rgt x) (rgt self) = true)
  ∧ (x ∈ selfAndAncestors s self empty_filter
     ↔ x ∈ s
       ∧ (js_le (lft x) (lft self) = true ∨ (lft self = None ∧ lft x = None))
       ∧ (js_ge (rgt x) (rgt self) = true ∨ (rgt self = None ∧ rgt x = None)))
  ∧ (x ∈ descendants s self empty_filter
     ↔ x ∈ s ∧ js_gt (lft x) (lft self) = true ∧ js_lt (rgt x) (rgt self) = true)
  ∧ (x ∈ selfAndDescendants s self empty_filter
     ↔ x ∈ s
       ∧ (js_ge (lft x) (lft self) = true ∨ (lft self = None ∧ lft x = None))
       ∧ (js_le (rgt x) (rgt self) = true ∨ (rgt self = None ∧ rgt x = None)))
  ∧ (x ∈ children s self empty_filter
     ↔ x ∈ s ∧ parentReference x = Some (_id self))
  ∧ (x ∈ selfAndChildren s self empty_filter
     ↔ x ∈ s ∧ (parentReference x = Some (_id self) ∨ _id x = _id self))
  ∧ (x ∈ siblings s self empty_filter
     ↔ x ∈ s ∧ parentReference x = parentReference self ∧ _id x ≠ _id self)
  ∧ (x ∈ selfAndSiblings s self empty_filter
     ↔ x ∈ s ∧ parentReference x = parentReference self)
  ∧ (x ∈ find_children s self
     ↔ x ∈ s ∧ parentReference x = Some (_id self)).
Proof.
  split_and!.
  - unfold ancestors. unfold_query. rewrite andb_true_iff. tauto.
  - unfold selfAndAncestors. unfold_query.
    rewrite andb_true_iff, inclusive_bound, inclusive_bound'. tauto.
  - unfold descendants. unfold_query. rewrite andb_true_iff. tauto.
  - unfold selfAndDescendants. unfold_query.
    rewrite andb_true_iff, inclusive_bound, inclusive_bound'. tauto.
  - unfold children. unfold_query. rewrite bool_decide_eq_true. tauto.
  - unfold selfAndChildren. unfold_query.
    rewrite orb_true_iff, !bool_decide_eq_true. tauto.
  - rewrite siblings_plain, list_elem_of_filter. tauto.
  - unfold selfAndSiblings. unfold_query. rewrite bool_decide_eq_true. tauto.
  - rewrite find_children_pointing. unfold pointing_to.
    rewrite list_elem_of_filter. tauto.
Qed.

(** ** The interval relation under the invariant *)

Ltac to_Z :=
  repeat match goal with
  | H : _ && _ = true |- _ => apply andb_true_iff in H as [? ?]
  | H : _ || _ = true |- _ => apply orb_true_iff in H as [?|?]
  | H : _ && _ = false |- _ => apply andb_false_iff in H as [?|?]
  | H : _ || _ = false |- _ => apply orb_false_iff in H as [? ?]
  | H : (_ <? _) = true |- _ => apply Z.ltb_lt in H
  | H : (_ <? _) = false |- _ => apply Z.ltb_ge in H
  | H : bool_decide _ = true |- _ => apply bool_decide_eq_true in H
  | H : bool_decide _ = false |- _ => apply bool_decide_eq_false in H
  end.

Lemma well_formed_elem options s a b :
  well_formed options s = true → a ∈ s → b ∈ s →
  (negb (bounds_present a) || js_lt (lft a) (rgt a)) = true
  ∧ (bool_decide (a = b)
     || negb (same_partition options a b)
     || negb (bounds_present a && bounds_present b)
     || nested_in a b || nested_in b a || disjoint a b) = true.
Proof.
  unfold well_formed. rewrite forallb_forall.
  intros Hwf Ha%list_elem_of_In Hb%list_elem_of_In.
  specialize (Hwf a Ha). apply andb_true_iff in Hwf as [H1 H2].
  split; [done|]. rewrite forallb_forall in H2. by apply H2.
Qed.

(** C5.  In a collection that satisfies the nested-set invariant, two
    documents of one partition that both carry boundaries stand in exactly
    one of four relations: they are the same document, the first is a
    descendant of the second, the first is an ancestor of the second, or
    their intervals are disjoint. *)
Theorem interval_relation_exclusive (options : INestedSetOptions) (s : Store)
    (a b : Node) :
  well_formed options s = true →
  a ∈ s → b ∈ s →
  same_partition options a b = true →
  bounds_present a = true → bounds_present b = true →
  exactly_one
    [bool_decide (a = b); isDescendantOf a b; isAncestorOf a b; disjoint a b].
Proof.
  intros Hwf Ha Hb Hpart Hpa Hpb.
  destruct (well_formed_elem options s a b Hwf Ha Hb) as [Hab Hpair].
  destruct (well_formed_elem options s b a Hwf Hb Ha) as [Hba _].
  rewrite Hpart, Hpa, Hpb in Hpair. rewrite Hpa in Hab. rewrite Hpb in Hba.
  cbn [negb andb orb] in Hab, Hba, Hpair. rewrite !orb_false_r in Hpair.
  unfold exactly_one, isDescendantOf, isAncestorOf, disjoint, nested_in in *.
  destruct (decide (a = b)) as [->|Hne].
  - rewrite bool_decide_eq_true_2 by done.
    destruct (lft b) as [l|], (rgt b) as [r|]; try done.
    clear Hpair. unfold js_lt in *. to_Z.
    rewrite Z.ltb_irrefl, (proj2 (Z.ltb_ge r l)) by lia. done.
  - rewrite bool_decide_eq_false_2 in * by done. cbn [orb] in Hpair.
    destruct (lft a) as [la|], (rgt a) as [ra|], (lft b) as [lb|], (rgt b) as [rb|];
      try done.
    unfold js_lt in *.
    destruct (lb <? la) eqn:E1, (la <? rb) eqn:E2, (la <? lb) eqn:E3,
      (lb <? ra) eqn:E4, (ra <? lb) eqn:E5, (rb <? la) eqn:E6;
      try reflexivity; exfalso; cbn [andb orb] in *; to_Z; lia.
Qed.

Lemma interval_relation_exclusive_witness :
  exactly_one
    [bool_decide (built kelly 3 4 = built michael 1 20);
     isDescendantOf (built kelly 3 4) (built michael 1 20);
     isAncestorOf (built kelly 3 4) (built michael 1 20);
     disjoint (built kelly 3 4) (built michael 1 20)].
Proof.
  apply (interval_relation_exclusive no_options office_built).
  - vm_compute. reflexivity.
  - by_computation.
  - by_computation.
  - reflexivity.
  - reflexivity.
  - reflexivity.
Defined.

(** * Further properties of the plugin *)

(** ** The interval predicates on any two documents *)

(** X1.  [isDescendantOf] is the converse of [isAncestorOf], no document is
    its own descendant, two documents are never descendants of each other,
    and the predicate holds only when the three boundaries it reads are
    there, with the first document's [lft] strictly inside the other's
    interval. *)
Theorem descendant_converse_of_ancestor (a b : Node) :
  isDescendantOf a b = isAncestorOf b a
  ∧ isDescendantOf a a = false
  ∧ (isDescendantOf a b = true → isDescendantOf b a = false)
  ∧ (isDescendantOf a b = true →
     ∃ la lb rb, lft a = Some la ∧ lft b = Some lb ∧ rgt b = Some rb
                 ∧ lb < la < rb).
Proof.
  unfold isDescendantOf, isAncestorOf, js_lt. split_and!.
  - done.
  - destruct (lft a) as [la|]; [|done]. by rewrite Z.ltb_irrefl.
  - destruct (lft a) as [la|], (lft b) as [lb|]; try done.
    intros [Hab _]%andb_true_iff. apply Z.ltb_lt in Hab.
    by rewrite (proj2 (Z.ltb_ge la lb)) by lia.
  - destruct (lft a) as [la|], (lft b) as [lb|], (rgt b) as [rb|]; try done.
    + intros [H1 H2]%andb_true_iff. apply Z.ltb_lt in H1, H2.
      exists la, lb, rb. split_and!; done.
    + by rewrite andb_false_r.
Qed.

(** ** The queries on any collection *)

Lemma js_lt_irrefl v : js_lt v v = false.
Proof. destruct v as [z|]; [|done]. apply Z.ltb_irrefl. Qed.

(** X2.  A document of the collection is always among the results of its
    own [selfAndAncestors], [selfAndDescendants], [selfAndSiblings] and
    [selfAndChildren], built or not, and never among its [ancestors],
    [descendants] or [siblings].  For a document without boundaries
    [selfAndAncestors] and [selfAndDescendants] both return the documents
    of the collection that have no boundaries either, related to it or
    not. *)
Theorem self_variants_and_self (s : Store) (self : Node) :
  self ∈ s →
  (self ∈ selfAndAncestors s self empty_filter)
  ∧ (self ∈ selfAndDescendants s self empty_filter)
  ∧ (self ∈ selfAndSiblings s self empty_filter)
  ∧ (self ∈ selfAndChildren s self empty_filter)
  ∧ (self ∉ ancestors s self empty_filter)
  ∧ (self ∉ descendants s self empty_filter)
  ∧ (self ∉ siblings s self empty_filter)
  ∧ (lft self = None → rgt self = None →
     selfAndAncestors s self empty_filter
     = filter (λ n, lft n = None ∧ rgt n = None) s
     ∧ selfAndDescendants s self empty_filter
       = filter (λ n, lft n = None ∧ rgt n = None) s).
Proof.
  intros Hin. split_and!.
  - unfold selfAndAncestors. unfold_query.
    split; [|done]. by destruct (lft self), (rgt self); simpl; rewrite ?Z.leb_refl.
  - unfold selfAndDescendants. unfold_query.
    split; [|done]. by destruct (lft self), (rgt self); simpl; rewrite ?Z.leb_refl.
  - unfold selfAndSiblings. unfold_query. by rewrite bool_decide_eq_true.
  - unfold selfAndChildren. unfold_query.
    rewrite orb_true_iff, !bool_decide_eq_true. tauto.
  - unfold ancestors. unfold_query. rewrite !js_lt_irrefl. by intros [? _].
  - unfold descendants. unfold_query. rewrite !js_lt_irrefl. by intros [? _].
  - rewrite siblings_plain, list_elem_of_filter. by intros [[_ ?] _].
  - intros Hl Hr. unfold selfAndAncestors, selfAndDescendants, find.
    split; apply list_filter_iff; intros n;
      unfold matches, set_in, matches_conditions; simpl;
      rewrite fields_hold_empty, Hl, Hr; simpl;
      destruct (lft n), (rgt n); simpl; split; try done; by intros [? ?].
Qed.

Lemma self_variants_and_self_witness :
  (kelly ∈ selfAndAncestors office kelly empty_filter)
  ∧ (kelly ∈ selfAndDescendants office kelly empty_filter)
  ∧ (kelly ∈ selfAndSiblings office kelly empty_filter)
  ∧ (kelly ∈ selfAndChildren office kelly empty_filter)
  ∧ (kelly ∉ ancestors office kelly empty_filter)
  ∧ (kelly ∉ descendants office kelly empty_filter)
  ∧ (kelly ∉ siblings office kelly empty_filter)
  ∧ selfAndAncestors office kelly empty_filter
    = filter (λ n, lft n = None ∧ rgt n = None) office
  ∧ selfAndDescendants office kelly empty_filter
    = filter (λ n, lft n = None ∧ rgt n = None) office.
Proof.
  destruct (self_variants_and_self office kelly)
    as (H1 & H2 & H3 & H4 & H5 & H6 & H7 & H8); [by_computation|].
  destruct H8 as [H8 H9]; [reflexivity|reflexivity|].
  repeat split; assumption.
Defined.

Ltac unfold_both_queries :=
  unfold find; rewrite !list_elem_of_filter;
  unfold matches, set_in, matches_conditions, without_bounds; simpl;
  rewrite fields_hold_empty, !andb_true_iff.

(** X3.  The four boundary queries write their own [lft] and [rgt] entries
    over whatever the caller's filter held for those keys, and keep the
    caller's other entries: with a caller filter they return the documents
    they return without one that also meet the caller's conditions other
    than those on [lft] and [rgt]. *)
Theorem boundary_queries_replace_caller_bounds (s : Store) (self x : Node)
    (c : Conditions) :
  (x ∈ ancestors s self (plain c)
   ↔ x ∈ ancestors s self empty_filter
     ∧ matches_conditions (without_bounds c) x = true)
  ∧ (x ∈ selfAndAncestors s self (plain c)
     ↔ x ∈ selfAndAncestors s self empty_filter
       ∧ matches_conditions (without_bounds c) x = true)
  ∧ (x ∈ descendants s self (plain c)
     ↔ x ∈ descendants s self empty_filter
       ∧ matches_conditions (without_bounds c) x = true)
  ∧ (x ∈ selfAndDescendants s self (plain c)
     ↔ x ∈ selfAndDescendants s self empty_filter
       ∧ matches_conditions (without_bounds c) x = true).
Proof.
  split_and!.
  - unfold ancestors. unfold_both_queries. tauto.
  - unfold selfAndAncestors. unfold_both_queries. tauto.
  - unfold descendants. unfold_both_queries. tauto.
  - unfold selfAndDescendants. unfold_both_queries. tauto.
Qed.

(** ** The hooks and a parent that is not there *)

(** X4.  When no document of the collection has the identifier that the
    parent reference names, in particular when the reference is unset, both
    hooks call [next] at once: the collection and the document are as they
    were and no error is raised. *)
Theorem hooks_ignore_missing_parent (options : INestedSetOptions) (s : Store)
    (self : Node) :
  (∀ n, n ∈ s → Some (_id n) ≠ parentReference self) →
  pre_save options s self = next s self
  ∧ pre_remove options s self = next s self.
Proof.
  intros Hnone.
  assert (parent s self = None) as Hp.
  { rewrite parent_plain. by rewrite filter_none. }
  split; [by apply pre_save_no_parent|by apply pre_remove_no_parent].
Qed.

Lemma hooks_ignore_missing_parent_witness :
  pre_save no_options office_built orphan = next office_built orphan
  ∧ pre_remove no_options office_built orphan = next office_built orphan.
Proof.
  apply (hooks_ignore_missing_parent no_options office_built orphan).
  apply Forall_forall. by_computation.
Defined.

(** ** What rebuildTree and the hooks leave alone *)

Lemma updateOne_frame s i l r : frame <$> updateOne s i l r = frame <$> s.
Proof.
  induction s as [|n s IH]; [done|]. simpl.
  case_bool_decide; [done|]. by rewrite fmap_cons, IH.
Qed.

Lemma rebuild_loop_frame fuel :
  (∀ s parent left,
     match rebuildTree fuel s parent left with
     | Settled _ s' parent' => frame <$> s' = frame <$> s ∧ frame parent' = frame parent
     | OutOfFuel => True
     end) →
  ∀ items s par s' par',
    forEachSeries items (rebuild_child (rebuildTree fuel)) (s, par) = Some (s', par') →
    frame <$> s' = frame <$> s ∧ frame par' = frame par.
Proof.
  intros IH. induction items as [|item items IHitems]; intros s par s' par' Hloop.
  - by injection Hloop as <- <-.
  - cbn [forEachSeries rebuild_child] in Hloop.
    specialize (IH s item (rgt par)).
    destruct (rebuildTree fuel s item (rgt par)) as [e s1 item1|]; [|done].
    destruct IH as [Hs1 _].
    apply IHitems in Hloop as [Hs' Hpar'].
    by rewrite Hs', updateOne_frame, Hs1, Hpar'.
Qed.

Lemma rebuildTree_frame (fuel : nat) (s : Store) (parent : Node) (left : num) :
  match rebuildTree fuel s parent left with
  | Settled _ s' parent' =>
      frame <$> s' = frame <$> s ∧ frame parent' = frame parent
  | OutOfFuel => True
  end.
Proof.
  revert s parent left. induction fuel as [|fuel IH]; intros s parent left; [done|].
  cbn [rebuildTree]. unfold array_truthy. cbn [negb].
  case_bool_decide.
  - destruct (forEachSeries _ _ _) as [[s' parent']|] eqn:Hloop; [|done].
    by apply (rebuild_loop_frame fuel IH) in Hloop.
  - by rewrite updateOne_frame.
Qed.

(** X5.  Whatever the collection, the document and the fuel, a call of
    [rebuildTree] that settles has written nothing but [lft] and [rgt]: the
    collection holds the same documents in the same order with the same
    identifier, parent reference, [lvl] and other fields, and so does the
    in-memory document it was given; in particular it never recomputes
    [lvl]. *)
Theorem rebuildTree_writes_only_boundaries (fuel : nat) (s : Store)
    (parent : Node) (left : num) :
  match rebuildTree fuel s parent left with
  | Settled _ s' parent' =>
      frame <$> s' = frame <$> s ∧ frame parent' = frame parent
  | OutOfFuel => True
  end.
Proof.
  destruct fuel as [|fuel]; [done|].
  cbn [rebuildTree]. unfold array_truthy. cbn [negb].
  case_bool_decide.
  - destruct (forEachSeries _ _ _) as [[s' parent']|] eqn:Hloop; [|done].
    by apply (rebuild_loop_frame fuel (rebuildTree_frame fuel)) in Hloop.
  - by rewrite updateOne_frame.
Qed.

Lemma pre_save_store_cases options s self :
  hook_store (pre_save options s self) = s
  ∨ ∃ m, hook_store (pre_save options s self) = shifted options self m 2 <$> s.
Proof.
  unfold pre_save. destruct (ref_truthy _); [|by left].
  destruct (parent s self) as [p|]; [|by left].
  destruct (has_bounds p); [|by left].
  destruct (forallb _ _); [|by left].
  right. exists (maxRgt_of (siblings s self empty_filter) p).
  cbn [hook_store next]. rewrite shift_after_shifted. reflexivity.
Qed.

Lemma pre_remove_store_cases options s self :
  hook_store (pre_remove options s self) = s
  ∨ ∃ m, hook_store (pre_remove options s self) = shifted options self m (-2) <$> s.
Proof.
  unfold pre_remove. destruct (ref_truthy _); [|by left].
  destruct (parent s self) as [p|]; [|by left].
  destruct (has_bounds p); [|by left].
  destruct (forallb _ _); [|by left].
  right. eexists. cbn [hook_store next]. apply shift_after_shifted.
Qed.

Lemma shifted_frame options self m delta n :
  frame (shifted options self m delta n) = frame n
  ∧ (same_partition options n self = false → shifted options self m delta n = n)
  ∧ (lft (shifted options self m delta n) = lft n
     ∨ lft (shifted options self m delta n) = js_add (lft n) delta)
  ∧ (rgt (shifted options self m delta n) = rgt n
     ∨ rgt (shifted options self m delta n) = js_add (rgt n) delta).
Proof.
  unfold shifted. split_and!.
  - done.
  - intros ->. cbn [andb]. apply set_bounds_same.
  - cbn [lft set_lft set_rgt]. destruct (_ && js_gt (lft n) m); auto.
  - cbn [rgt set_lft set_rgt]. destruct (_ && js_gt (rgt n) m); auto.
Qed.

(** X6.  In every branch, a hook leaves the collection with the same
    documents in the same order; each keeps its identifier, parent
    reference, [lvl] and other fields; a document outside the partition of
    the hook's document is not changed at all; and each boundary either
    stays or moves by exactly +2 (creation) or -2 (removal).  The removal
    hook never changes the document it runs on, and neither hook hands an
    error to [next]. *)
Theorem hooks_move_boundaries_by_two (options : INestedSetOptions) (s : Store)
    (self : Node) :
  Forall2 (λ n n', frame n' = frame n
                   ∧ (same_partition options n self = false → n' = n)
                   ∧ (lft n' = lft n ∨ lft n' = js_add (lft n) 2)
                   ∧ (rgt n' = rgt n ∨ rgt n' = js_add (rgt n) 2))
    s (hook_store (pre_save options s self))
  ∧ Forall2 (λ n n', frame n' = frame n
                     ∧ (same_partition options n self = false → n' = n)
                     ∧ (lft n' = lft n ∨ lft n' = js_add (lft n) (-2))
                     ∧ (rgt n' = rgt n ∨ rgt n' = js_add (rgt n) (-2)))
      s (hook_store (pre_remove options s self))
  ∧ hook_doc (pre_remove options s self) = self
  ∧ hook_error (pre_save options s self) = None
  ∧ hook_error (pre_remove options s self) = None.
Proof.
  split_and!.
  - destruct (pre_save_store_cases options s self) as [->|[m ->]].
    + apply Forall_Forall2_diag, Forall_forall. intros n _. auto.
    + apply Forall2_fmap_r, Forall_Forall2_diag, Forall_forall.
      intros n _. apply shifted_frame.
  - destruct (pre_remove_store_cases options s self) as [->|[m ->]].
    + apply Forall_Forall2_diag, Forall_forall. intros n _. auto.
    + apply Forall2_fmap_r, Forall_Forall2_diag, Forall_forall.
      intros n _. apply shifted_frame.
  - unfold pre_remove.
    by destruct (ref_truthy _), (parent s self) as [p|];
      try destruct (has_bounds p); try destruct (forallb _ _).
  - unfold pre_save.
    by destruct (ref_truthy _), (parent s self) as [p|];
      try destruct (has_bounds p); try destruct (forallb _ _).
  - unfold pre_remove.
    by destruct (ref_truthy _), (parent s self) as [p|];
      try destruct (has_bounds p); try destruct (forallb _ _).
Qed.

(** ** The intervals of a rebuild *)

Lemma labels_of_range x cs R l r :
  Forall (λ c, ∀ L l r, label x c L = Some (l, r) →
                        L ≤ l ∧ l < r ∧ r ≤ L + 2 * zsize c - 1) cs →
  labels_of (label x) cs R = Some (l, r) →
  R ≤ l ∧ l < r ∧ r ≤ R + 2 * zsizes cs - 1.
Proof.
  intros Hcs. revert R. induction Hcs as [|c cs Hc _ IH]; intros R Hlab; [done|].
  simpl in Hlab. rewrite zsizes_cons.
  pose proof (zsize_pos c). assert (0 ≤ zsizes cs) by (unfold zsizes; lia).
  destruct (labels_of (label x) cs (R + 2 * zsize c)) as [b|] eqn:Hrest.
  - injection Hlab as ->. apply IH in Hrest. lia.
  - apply Hc in Hlab. lia.
Qed.

Lemma label_range x t L l r :
  label x t L = Some (l, r) → L ≤ l ∧ l < r ∧ r ≤ L + 2 * zsize t - 1.
Proof.
  revert L l r. induction t as [i cs IH] using tree_ind'. intros L l r Hlab.
  cbn [label] in Hlab. pose proof (zsize_pos (T i cs)).
  destruct (decide (x = i)).
  - injection Hlab as <- <-. lia.
  - apply labels_of_range in Hlab; [|done]. rewrite zsize_T. lia.
Qed.

Lemma label_range_below x t L l r :
  x ≠ root_id t → label x t L = Some (l, r) → L < l ∧ r < L + 2 * zsize t - 1.
Proof.
  destruct t as [i cs]. intros Hne Hlab. cbn [label] in Hlab.
  rewrite decide_False in Hlab by done.
  apply labels_of_range in Hlab.
  - rewrite zsize_T. lia.
  - apply Forall_forall. intros c _ L' l' r'. apply label_range.
Qed.

Lemma labels_of_laminar x y cs R lx rx ly ry :
  Forall (λ c, ∀ L lx rx ly ry,
            label x c L = Some (lx, rx) → label y c L = Some (ly, ry) →
            laminar lx rx ly ry) cs →
  labels_of (label x) cs R = Some (lx, rx) →
  labels_of (label y) cs R = Some (ly, ry) →
  laminar lx rx ly ry.
Proof.
  intros Hcs. revert R. induction Hcs as [|c cs Hc _ IH]; intros R Hx Hy; [done|].
  simpl in Hx, Hy.
  assert (∀ z l r, labels_of (label z) cs (R + 2 * zsize c) = Some (l, r) →
                   R + 2 * zsize c ≤ l ∧ l < r) as Hlater.
  { intros z l r Hz. apply labels_of_range in Hz; [lia|].
    apply Forall_forall. intros c' _ L' l' r'. apply label_range. }
  destruct (labels_of (label x) cs (R + 2 * zsize c)) as [bx|] eqn:Hrx,
           (labels_of (label y) cs (R + 2 * zsize c)) as [by'|] eqn:Hry.
  - injection Hx as ->. injection Hy as ->. by eapply IH.
  - injection Hx as ->. apply Hlater in Hrx. apply label_range in Hy.
    unfold laminar. lia.
  - injection Hy as ->. apply Hlater in Hry. apply label_range in Hx.
    unfold laminar. lia.
  - by eapply Hc.
Qed.

(** The intervals a rebuild gives to two different documents of the tree
    are nested or apart. *)
Lemma label_laminar x y t L lx rx ly ry :
  x ≠ y →
  label x t L = Some (lx, rx) → label y t L = Some (ly, ry) →
  laminar lx rx ly ry.
Proof.
  intros Hne. revert L lx rx ly ry.
  induction t as [i cs IH] using tree_ind'. intros L lx rx ly ry Hx Hy.
  destruct (decide (x = i)) as [Hxi|Hxi], (decide (y = i)) as [Hyi|Hyi].
  - congruence.
  - cbn [label] in Hx. rewrite (decide_True _ _ Hxi) in Hx. injection Hx as <- <-.
    apply label_range_below in Hy; [|done]. unfold laminar. lia.
  - cbn [label] in Hy. rewrite (decide_True _ _ Hyi) in Hy. injection Hy as <- <-.
    apply label_range_below in Hx; [|done]. unfold laminar. lia.
  - cbn [label] in Hx, Hy.
    rewrite (decide_False _ _ Hxi) in Hx. rewrite (decide_False _ _ Hyi) in Hy.
    by eapply labels_of_laminar.
Qed.

Lemma NoDup_fmap_elem {A B} (f : A → B) (l : list A) (x y : A) :
  NoDup (f <$> l) → x ∈ l → y ∈ l → f x = f y → x = y.
Proof.
  induction l as [|a l IH]; intros Hnd Hx Hy Hf; [by apply elem_of_nil in Hx|].
  rewrite fmap_cons in Hnd. apply NoDup_cons in Hnd as [Ha Hnd].
  apply elem_of_cons in Hx as [->|Hx], Hy as [->|Hy].
  - done.
  - destruct Ha. rewrite Hf. by apply list_elem_of_fmap_2.
  - destruct Ha. rewrite <- Hf. by apply list_elem_of_fmap_2.
  - by apply IH.
Qed.

(** The rebuilt tree documents, one by one: every document of the tree in
    the rebuilt collection is a document of the old collection with the
    interval of its identifier. *)
Lemma rebuilt_elem t L (s : Store) n' :
  n' ∈ filter (λ n, _id n ∈ tree_ids t) (relabel (λ x, label x t L) s) →
  ∃ n l r, n ∈ s ∧ _id n ∈ tree_ids t ∧ label (_id n) t L = Some (l, r)
           ∧ n' = built n l r.
Proof.
  rewrite inside_relabel. unfold relabel.
  intros (n & -> & Hn)%list_elem_of_fmap.
  apply list_elem_of_filter in Hn as [Hin Hn].
  destruct (label_inside (_id n) t L Hin) as [[l r] Hlab].
  exists n, l, r. by rewrite Hlab.
Qed.

Lemma rebuilt_well_formed options t L (s : Store) :
  NoDup (_id <$> s) →
  well_formed options
    (filter (λ n, _id n ∈ tree_ids t) (relabel (λ x, label x t L) s)) = true.
Proof.
  intros Hnd. unfold well_formed. apply forallb_forall.
  intros a' Ha'%list_elem_of_In.
  destruct (rebuilt_elem _ _ _ _ Ha') as (a & la & ra & Ha & _ & Hla & ->).
  apply andb_true_iff. split.
  - apply orb_true_iff. right. apply label_range in Hla. simpl.
    apply Z.ltb_lt. lia.
  - apply forallb_forall. intros b' Hb'%list_elem_of_In.
    destruct (rebuilt_elem _ _ _ _ Hb') as (b & lb & rb & Hb & _ & Hlb & ->).
    destruct (decide (_id a = _id b)) as [Hid|Hid].
    + assert (a = b) as -> by by eapply NoDup_fmap_elem.
      rewrite Hla in Hlb. injection Hlb as <- <-.
      by rewrite bool_decide_eq_true_2.
    + pose proof (label_laminar _ _ _ _ _ _ _ _ Hid Hla Hlb) as Hlam.
      unfold nested_in, disjoint, js_lt. cbn [lft rgt built set_lft set_rgt].
      rewrite !orb_true_iff, !andb_true_iff, !Z.ltb_lt.
      unfold laminar in Hlam. tauto.
Qed.

Lemma rebuilt_boundaries t L (s : Store) :
  NoDup (_id <$> s) → NoDup (tree_ids t) →
  represents s t = true → root_id t ∈ _id <$> s →
  boundaries (filter (λ n, _id n ∈ tree_ids t) (relabel (λ x, label x t L) s))
  ≡ₚ Some <$> seqZ L (2 * zsize t).
Proof.
  intros Hnd Hndt Hrep Hin.
  rewrite inside_relabel, boundaries_relabel.
  2:{ intros x Hx. apply label_inside. rewrite ids_inside in Hx.
      by apply list_elem_of_filter in Hx as [? _]. }
  assert (_id <$> filter (λ n, _id n ∈ tree_ids t) s ≡ₚ tree_ids t) as ->.
  { rewrite ids_inside. apply NoDup_Permutation; [by apply NoDup_filter|done|].
    intros x. rewrite list_elem_of_filter. split; [by intros [? _]|].
    intros Hx. split; [done|]. by eapply tree_in_store. }
  apply fmap_Permutation. by rewrite label_ends.
Qed.

(** X7.  Started at any left boundary [L] on a tree of N documents,
    [rebuildTree] settles without error once the fuel covers the height of
    the tree; the root receives [L] and [L + 2N - 1], the boundaries stored
    on the tree's documents are exactly the 2N consecutive integers from
    [L], each used once, and whatever the grouping key these documents
    satisfy the nested-set invariant: every interval has its left end
    before its right end and two intervals are nested or apart. *)
Theorem rebuildTree_establishes_invariant (options : INestedSetOptions)
    (s : Store) (t : tree) (root : Node) (fuel : nat) (L : Z) :
  NoDup (_id <$> s) →
  NoDup (tree_ids t) →
  represents s t = true →
  root_id t ∈ _id <$> s →
  _id root = root_id t →
  (height t ≤ fuel)%nat →
  ∃ s',
    rebuildTree fuel s root (Some L)
    = Settled None s' (built root L (L + 2 * Z.of_nat (size t) - 1))
    ∧ boundaries (filter (λ n, _id n ∈ tree_ids t) s')
      ≡ₚ Some <$> seqZ L (2 * Z.of_nat (size t))
    ∧ well_formed options (filter (λ n, _id n ∈ tree_ids t) s') = true.
Proof.
  intros Hnd Hndt Hrep Hin Hroot Hfuel. fold (zsize t).
  exists (relabel (λ x, label x t L) s). split_and!.
  - by rewrite (rebuildTree_tree t fuel).
  - by apply rebuilt_boundaries.
  - by apply rebuilt_well_formed.
Qed.

Lemma rebuildTree_establishes_invariant_witness :
  ∃ s',
    rebuildTree 3 office michael (Some 0)
    = Settled None s' (built michael 0 (0 + 2 * Z.of_nat (size office_tree) - 1))
    ∧ boundaries (filter (λ n, _id n ∈ tree_ids office_tree) s')
      ≡ₚ Some <$> seqZ 0 (2 * Z.of_nat (size office_tree))
    ∧ well_formed no_options (filter (λ n, _id n ∈ tree_ids office_tree) s') = true.
Proof.
  apply (rebuildTree_establishes_invariant no_options office office_tree michael 3 0).
  - by_computation.
  - by_computation.
  - vm_compute. reflexivity.
  - by_computation.
  - reflexivity.
  - vm_compute. lia.
Defined.

(** ** Leaves after a rebuild *)

Lemma children_plain s self :
  children s self empty_filter = pointing_to s (_id self).
Proof.
  unfold children, find, pointing_to. apply list_filter_iff. intros n.
  unfold matches, set_in, matches_conditions; simpl. rewrite fields_hold_empty.
  rewrite !andb_true_r. apply bool_decide_eq_true.
Qed.

Lemma labels_of_width s x cs R :
  Forall (λ c, ∀ L, NoDup (tree_ids c) → represents s c = true → x ∈ tree_ids c →
            ∃ l r, label x c L = Some (l, r)
                   ∧ (r - l = 1 ↔ pointing_to s x = [])) cs →
  NoDup (cs ≫= tree_ids) → forallb (represents s) cs = true →
  x ∈ cs ≫= tree_ids →
  ∃ l r, labels_of (label x) cs R = Some (l, r)
         ∧ (r - l = 1 ↔ pointing_to s x = []).
Proof.
  intros Hcs. revert R.
  induction Hcs as [|c cs Hc _ IH]; intros R Hnd Hrep Hx.
  - by apply elem_of_nil in Hx.
  - rewrite bind_cons in Hnd, Hx. apply NoDup_app in Hnd as (Hndc & Hsep & Hndcs).
    simpl in Hrep. apply andb_true_iff in Hrep as [Hrc Hrep].
    simpl. apply elem_of_app in Hx as [Hx|Hx].
    + rewrite labels_of_outside; [by apply Hc| |by apply Hsep].
      apply Forall_forall. intros c' _ L'. apply label_outside.
    + destruct (IH (R + 2 * zsize c) Hndcs Hrep Hx) as (l & r & -> & Hw).
      by exists l, r.
Qed.

Lemma zsizes_zero cs : zsizes cs = 0 ↔ cs = [].
Proof.
  split; [|by intros ->]. destruct cs as [|c cs]; [done|].
  rewrite zsizes_cons. pose proof (zsize_pos c).
  assert (0 ≤ zsizes cs) by (unfold zsizes; lia). lia.
Qed.

(** The interval of a document has width 1 exactly when no document of the
    collection points to it. *)
Lemma label_width s x t L :
  NoDup (tree_ids t) → represents s t = true → x ∈ tree_ids t →
  ∃ l r, label x t L = Some (l, r) ∧ (r - l = 1 ↔ pointing_to s x = []).
Proof.
  revert L. induction t as [i cs IH] using tree_ind'. intros L Hnd Hrep Hx.
  change (tree_ids (T i cs)) with (i :: (cs ≫= tree_ids)) in *.
  apply NoDup_cons in Hnd as [Hi Hnd].
  simpl in Hrep. apply andb_true_iff in Hrep as [Hkids Hrep].
  apply bool_decide_eq_true in Hkids. cbn [label].
  destruct (decide (x = i)) as [->|Hne].
  - exists L, (L + 2 * zsize (T i cs) - 1). split; [done|].
    rewrite zsize_T. split.
    + intros Hw. assert (cs = []) as -> by (apply zsizes_zero; lia).
      by apply fmap_nil_inv in Hkids.
    + intros Hnone. rewrite Hnone in Hkids. symmetry in Hkids.
      apply fmap_nil_inv in Hkids as ->. rewrite zsizes_nil. lia.
  - apply elem_of_cons in Hx as [?|Hx]; [done|]. by apply labels_of_width.
Qed.

(** X8.  After a rebuild that starts at a positive left boundary, [isLeaf]
    on a document of the tree answers [true] or [false], and [true] exactly
    when the [children] query finds no document for it. *)
Theorem isLeaf_after_rebuild (s : Store) (t : tree) (root : Node) (fuel : nat)
    (L : Z) :
  NoDup (_id <$> s) →
  NoDup (tree_ids t) →
  represents s t = true →
  _id root = root_id t →
  (height t ≤ fuel)%nat →
  0 < L →
  ∃ s' root',
    rebuildTree fuel s root (Some L) = Settled None s' root'
    ∧ ∀ n, n ∈ s' → _id n ∈ tree_ids t →
        isLeaf n = JBool (bool_decide (children s' n empty_filter = [])).
Proof.
  intros Hnd Hndt Hrep Hroot Hfuel HL.
  eexists _, _. split; [by apply (rebuildTree_tree t fuel)|].
  intros n' Hn' Hin.
  assert (n' ∈ filter (λ n, _id n ∈ tree_ids t) (relabel (λ x, label x t L) s))
    as Hn'' by by apply list_elem_of_filter.
  destruct (rebuilt_elem _ _ _ _ Hn'') as (n & l & r & Hn & _ & Hlab & ->).
  destruct (label_width s (_id n) t L Hndt Hrep) as (l' & r' & Hlab' & Hw); [done|].
  rewrite Hlab in Hlab'. injection Hlab' as <- <-.
  apply label_range in Hlab.
  rewrite children_plain, pointing_to_relabel.
  change (_id (built n l r)) with (_id n).
  unfold isLeaf, js_and. cbn [lft rgt built set_lft set_rgt of_num js_truthy js_sub].
  rewrite (proj2 (Z.eqb_neq l 0)) by lia. cbn [negb js_truthy].
  rewrite (proj2 (Z.eqb_neq r 0)) by lia. cbn [negb].
  f_equal. apply bool_decide_ext.
  split.
  - intros [= Hone]. apply Hw in Hone. by rewrite Hone.
  - intros Hnone. f_equal. apply Hw. unfold relabel in Hnone.
    by apply fmap_nil_inv in Hnone.
Qed.

Lemma isLeaf_after_rebuild_witness :
  ∃ s' root',
    rebuildTree 3 office michael (Some 1) = Settled None s' root'
    ∧ ∀ n, n ∈ s' → _id n ∈ tree_ids office_tree →
        isLeaf n = JBool (bool_decide (children s' n empty_filter = [])).
Proof.
  apply (isLeaf_after_rebuild office office_tree michael 3 1).
  - by_computation.
  - by_computation.
  - vm_compute. reflexivity.
  - reflexivity.
  - vm_compute. lia.
  - lia.
Defined.

(** ** Levels after a rebuild *)

Lemma filter_ext_elem {A} (P Q : A → Prop) `{∀ x, Decision (P x)}
    `{∀ x, Decision (Q x)} (l : list A) :
  (∀ x, x ∈ l → P x ↔ Q x) → filter P l = filter Q l.
Proof.
  induction l as [|x l IH]; intros HPQ; [done|].
  rewrite !filter_cons, IH.
  - destruct (decide (P x)) as [Hp|Hp], (decide (Q x)) as [Hq|Hq]; try done.
    + destruct Hq. by apply (HPQ x (list_elem_of_here _ _)).
    + destruct Hp. by apply (HPQ x (list_elem_of_here _ _)).
  - intros y Hy. by apply HPQ, list_elem_of_further.
Qed.

Lemma length_filter_fmap {A} (P Q : A → Prop) `{∀ x, Decision (P x)}
    `{∀ x, Decision (Q x)} (g : A → A) (l : list A) :
  (∀ x, x ∈ l → P (g x) ↔ Q x) →
  length (filter P (g <$> l)) = length (filter Q l).
Proof.
  induction l as [|x l IH]; intros HPQ; [done|].
  rewrite fmap_cons, !filter_cons.
  assert (length (filter P (g <$> l)) = length (filter Q l)) as Hrest.
  { apply IH. intros y Hy. by apply HPQ, list_elem_of_further. }
  destruct (decide (P (g x))) as [Hp|Hp], (decide (Q x)) as [Hq|Hq]; simpl;
    try by rewrite Hrest.
  - destruct Hq. by apply (HPQ x (list_elem_of_here _ _)).
  - destruct Hp. by apply (HPQ x (list_elem_of_here _ _)).
Qed.

Lemma labels_inside x cs R :
  x ∈ cs ≫= tree_ids → is_Some (labels_of (label x) cs R).
Proof.
  apply labels_of_inside, Forall_forall. intros c _ L. apply label_inside.
Qed.

Lemma labels_outside x cs R :
  x ∉ cs ≫= tree_ids → labels_of (label x) cs R = None.
Proof.
  apply labels_of_outside, Forall_forall. intros c _ L. apply label_outside.
Qed.

Lemma labels_of_later x c cs R :
  x ∈ cs ≫= tree_ids →
  labels_of (label x) (c :: cs) R = labels_of (label x) cs (R + 2 * zsize c).
Proof.
  intros Hx. simpl. by destruct (labels_inside x cs (R + 2 * zsize c) Hx) as [b ->].
Qed.

Lemma labels_of_first x c cs R :
  x ∉ cs ≫= tree_ids → labels_of (label x) (c :: cs) R = label x c R.
Proof. intros Hx. simpl. by rewrite labels_outside. Qed.

Lemma labels_range x cs R l r :
  labels_of (label x) cs R = Some (l, r) →
  R ≤ l ∧ l < r ∧ r ≤ R + 2 * zsizes cs - 1.
Proof.
  apply labels_of_range, Forall_forall. intros c _ L l' r'. apply label_range.
Qed.

Lemma depths_of_outside x cs :
  Forall (λ c, x ∉ tree_ids c → depth_of x c = None) cs →
  x ∉ cs ≫= tree_ids → depths_of (depth_of x) cs = None.
Proof.
  induction 1 as [|c cs Hc _ IH]; intros Hx; [done|].
  rewrite bind_cons in Hx. apply not_elem_of_app in Hx as [Hxc Hxcs].
  simpl. by rewrite IH, Hc.
Qed.

Lemma depth_outside x t : x ∉ tree_ids t → depth_of x t = None.
Proof.
  induction t as [i cs IH] using tree_ind'. intros Hx.
  simpl in Hx. apply not_elem_of_cons in Hx as [Hxi Hx].
  simpl. rewrite decide_False by done. by rewrite depths_of_outside.
Qed.

Lemma count_enclosing_list x cs R :
  Forall (λ c, ∀ L, NoDup (tree_ids c) → x ∈ tree_ids c →
            depth_of x c
            = Some (length (filter (λ y, encloses (label y c L) (label x c L) = true)
                              (tree_ids c)))) cs →
  NoDup (cs ≫= tree_ids) → x ∈ cs ≫= tree_ids →
  depths_of (depth_of x) cs
  = Some (length (filter (λ y, encloses (labels_of (label y) cs R)
                                 (labels_of (label x) cs R) = true)
                    (cs ≫= tree_ids))).
Proof.
  intros Hcs. revert R. induction Hcs as [|c cs Hc _ IH]; intros R Hnd Hx.
  - by apply elem_of_nil in Hx.
  - rewrite bind_cons in Hnd, Hx. apply NoDup_app in Hnd as (Hndc & Hsep & Hndcs).
    rewrite bind_cons, filter_app, length_app.
    pose proof (zsize_pos c) as Hpos.
    apply elem_of_app in Hx as [Hx|Hx].
    + rewrite (labels_of_first x) by by apply Hsep.
      destruct (label_inside x c R Hx) as [[lx rx] Hlx].
      pose proof (label_range _ _ _ _ _ Hlx) as Hrx.
      rewrite (filter_ext_elem _ (λ y, encloses (label y c R) (label x c R) = true)).
      2:{ intros y Hy. by rewrite labels_of_first by by apply Hsep. }
      rewrite (filter_none _ (cs ≫= tree_ids)).
      2:{ intros y Hy. rewrite labels_of_later, Hlx by done.
          destruct (labels_inside y cs (R + 2 * zsize c) Hy) as [[ly ry] Hly].
          rewrite Hly. apply labels_range in Hly. unfold encloses.
          rewrite (proj2 (Z.ltb_ge ly lx)) by lia. done. }
      simpl. rewrite depths_of_outside; [|
        apply Forall_forall; intros c' _; apply depth_outside|by apply Hsep].
      rewrite (Hc R Hndc Hx). f_equal. cbn [length]. lia.
    + assert (x ∉ tree_ids c) as Hxc by (intros Hxc; by apply (Hsep x Hxc)).
      rewrite (labels_of_later x) by done.
      destruct (labels_inside x cs (R + 2 * zsize c) Hx) as [[lx rx] Hlx].
      pose proof (labels_range _ _ _ _ _ Hlx) as Hrx.
      rewrite (filter_none _ (tree_ids c)).
      2:{ intros y Hy. rewrite labels_of_first, Hlx by by apply Hsep.
          destruct (label_inside y c R Hy) as [[ly ry] Hly].
          rewrite Hly. apply label_range in Hly. unfold encloses.
          rewrite (proj2 (Z.ltb_ge rx ry)) by lia. apply not_true_iff_false.
          apply andb_false_r. }
      rewrite (filter_ext_elem _ (λ y, encloses (labels_of (label y) cs (R + 2 * zsize c))
                                         (labels_of (label x) cs (R + 2 * zsize c)) = true)
                 (cs ≫= tree_ids)).
      2:{ intros y Hy. by rewrite labels_of_later, Hlx by done. }
      simpl. by rewrite (IH (R + 2 * zsize c) Hndcs Hx).
Qed.

(** The depth of a document in the tree is the number of documents of the
    tree whose interval strictly contains its own. *)
Lemma count_enclosing x t L :
  NoDup (tree_ids t) → x ∈ tree_ids t →
  depth_of x t
  = Some (length (filter (λ y, encloses (label y t L) (label x t L) = true)
                    (tree_ids t))).
Proof.
  revert L. induction t as [i cs IH] using tree_ind'. intros L Hnd Hx.
  change (tree_ids (T i cs)) with (i :: (cs ≫= tree_ids)) in *.
  apply NoDup_cons in Hnd as [Hi Hnd].
  destruct (decide (x = i)) as [Hxi|Hxi].
  - assert (label x (T i cs) L = Some (L, L + 2 * zsize (T i cs) - 1)) as ->.
    { cbn [label]. by rewrite (decide_True _ _ Hxi). }
    cbn [depth_of]. rewrite (decide_True _ _ Hxi).
    rewrite filter_none; [done|].
    intros y Hy. destruct (label y (T i cs) L) as [[ly ry]|] eqn:Hly; [|done].
    apply label_range in Hly. unfold encloses.
    rewrite (proj2 (Z.ltb_ge ly L)) by lia. done.
  - apply elem_of_cons in Hx as [?|Hx]; [done|].
    cbn [depth_of]. rewrite (decide_False _ _ Hxi).
    rewrite (count_enclosing_list x cs (L + 1) IH Hnd Hx).
    destruct (label x (T i cs) L) as [[lx rx]|] eqn:Hlx.
    2:{ destruct (label_inside x (T i cs) L (list_elem_of_further _ _ _ Hx)) as [b Hb].
        congruence. }
    pose proof (label_range_below x (T i cs) L lx rx Hxi Hlx) as Hbelow.
    rewrite filter_cons_True.
    2:{ cbn [label]. rewrite decide_True by done. unfold encloses.
        apply andb_true_iff. split; apply Z.ltb_lt; lia. }
    cbn [fmap option_fmap option_map length]. do 2 f_equal.
    rewrite <- Hlx. f_equal. apply filter_ext_elem. intros y Hy.
    cbn [label]. rewrite (decide_False _ _ Hxi).
    rewrite decide_False; [done|]. intros ->. by apply Hi.
Qed.

Lemma ancestors_plain s self :
  ancestors s self empty_filter
  = filter (λ y, js_lt (lft y) (lft self) = true ∧ js_lt (rgt self) (rgt y) = true) s.
Proof.
  unfold ancestors, find. apply list_filter_iff. intros n.
  unfold matches, set_in, matches_conditions; simpl. rewrite fields_hold_empty.
  rewrite !andb_true_r. apply andb_true_iff.
Qed.

(** X9.  After a rebuild of a collection that consists of the documents of
    one tree, [level], the number of documents the [ancestors] query
    returns, is the depth of the document in the tree: 0 for the root, 1
    for its children, and so on, whatever the left boundary the rebuild
    started from. *)
Theorem level_after_rebuild (s : Store) (t : tree) (root : Node) (fuel : nat)
    (L : Z) :
  NoDup (_id <$> s) →
  represents s t = true →
  _id <$> s ≡ₚ tree_ids t →
  _id root = root_id t →
  (height t ≤ fuel)%nat →
  ∃ s' root',
    rebuildTree fuel s root (Some L) = Settled None s' root'
    ∧ ∀ n, n ∈ s' → Some (level s' n) = depth_of (_id n) t.
Proof.
  intros Hnd Hrep Hperm Hroot Hfuel.
  assert (NoDup (tree_ids t)) as Hndt by by rewrite <- Hperm.
  eexists _, _. split; [by apply (rebuildTree_tree t fuel)|].
  intros n' Hn'. unfold relabel in Hn'.
  apply list_elem_of_fmap in Hn' as (n & -> & Hn).
  assert (_id n ∈ tree_ids t) as Hin.
  { rewrite <- Hperm. by apply list_elem_of_fmap_2. }
  destruct (label_inside (_id n) t L Hin) as [[lx rx] Hlx]. rewrite Hlx.
  change (_id (set_rgt (Some rx) (set_lft (Some lx) n))) with (_id n).
  rewrite (count_enclosing _ t L Hndt Hin). f_equal.
  unfold level. rewrite ancestors_plain.
  fold (relabel (λ x, label x t L) s). unfold relabel.
  rewrite (length_filter_fmap _
             (λ y, encloses (label (_id y) t L) (label (_id n) t L) = true)).
  2:{ intros y Hy.
      assert (_id y ∈ tree_ids t) as Hyin.
      { rewrite <- Hperm. by apply list_elem_of_fmap_2. }
      destruct (label_inside (_id y) t L Hyin) as [[ly ry] Hly].
      rewrite Hly, Hlx. unfold encloses, js_lt.
      cbn [lft rgt set_lft set_rgt]. by rewrite andb_true_iff. }
  transitivity (length (filter (λ i, encloses (label i t L) (label (_id n) t L) = true)
                          (_id <$> s))).
  - rewrite <- (ids_filter _ (λ y, encloses (label (_id y) t L)
                                     (label (_id n) t L) = true)) by done.
    by rewrite length_fmap.
  - apply Permutation_length. by rewrite Hperm.
Qed.

Lemma level_after_rebuild_witness :
  ∃ s' root',
    rebuildTree 3 office michael (Some 1) = Settled None s' root'
    ∧ ∀ n, n ∈ s' → Some (level s' n) = depth_of (_id n) office_tree.
Proof.
  apply (level_after_rebuild office office_tree michael 3 1).
  - by_computation.
  - vm_compute. reflexivity.
  - by_computation.
  - reflexivity.
  - vm_compute. lia.
Defined.

(** ** The nested-set invariant under the creation hook *)

Lemma well_formed_spec options s :
  well_formed options s = true
  ↔ ∀ a, a ∈ s → ordered a = true ∧ ∀ b, b ∈ s → compatible options a b = true.
Proof.
  unfold well_formed. rewrite forallb_forall. split.
  - intros Hwf a Ha%list_elem_of_In.
    apply Hwf in Ha. apply andb_true_iff in Ha as [Ho Hc]. split; [done|].
    intros b Hb%list_elem_of_In. rewrite forallb_forall in Hc. by apply Hc.
  - intros Hwf a Ha%list_elem_of_In. destruct (Hwf a Ha) as [Ho Hc].
    apply andb_true_iff. split; [done|]. apply forallb_forall.
    intros b Hb%list_elem_of_In. by apply Hc.
Qed.

Lemma ordered_intro a :
  (∀ la ra, lft a = Some la → rgt a = Some ra → la < ra) → ordered a = true.
Proof.
  unfold ordered, bounds_present, js_lt. intros H.
  destruct (lft a) as [la|], (rgt a) as [ra|]; try done.
  simpl. apply Z.ltb_lt. by apply H.
Qed.

Lemma ordered_elim a la ra :
  ordered a = true → lft a = Some la → rgt a = Some ra → la < ra.
Proof.
  unfold ordered, bounds_present, js_lt. intros H Hl Hr.
  rewrite Hl, Hr in H. simpl in H. by apply Z.ltb_lt.
Qed.

Lemma compatible_intro options a b :
  (a ≠ b → same_partition options a b = true →
   ∀ la ra lb rb, lft a = Some la → rgt a = Some ra →
                  lft b = Some lb → rgt b = Some rb → laminar la ra lb rb) →
  compatible options a b = true.
Proof.
  unfold compatible. intros H.
  destruct (decide (a = b)) as [Hab|Hab]; [by rewrite bool_decide_eq_true_2|].
  rewrite bool_decide_eq_false_2 by done.
  destruct (same_partition options a b); [|done].
  specialize (H Hab eq_refl). unfold bounds_present, nested_in, disjoint, js_lt.
  destruct (lft a) as [la|], (rgt a) as [ra|], (lft b) as [lb|], (rgt b) as [rb|];
    try done; try by rewrite ?andb_false_r.
  specialize (H la ra lb rb eq_refl eq_refl eq_refl eq_refl).
  cbn [bool_decide negb andb orb]. simpl.
  rewrite !orb_true_iff, !andb_true_iff, !Z.ltb_lt. unfold laminar in H. tauto.
Qed.

Lemma compatible_elim options a b la ra lb rb :
  compatible options a b = true → a ≠ b → same_partition options a b = true →
  lft a = Some la → rgt a = Some ra → lft b = Some lb → rgt b = Some rb →
  laminar la ra lb rb.
Proof.
  unfold compatible, bounds_present, nested_in, disjoint, js_lt.
  intros H Hab Hp Hla Hra Hlb Hrb.
  rewrite Hp, Hla, Hra, Hlb, Hrb, bool_decide_eq_false_2 in H by done.
  simpl in H. rewrite !orb_true_iff, !andb_true_iff, !Z.ltb_lt in H.
  unfold laminar. tauto.
Qed.

Lemma same_partition_sym options a b :
  same_partition options a b = same_partition options b a.
Proof.
  unfold same_partition. destruct (groupingKey options) as [key|]; [|done].
  case_bool_decide; [|done]. apply bool_decide_ext. split; congruence.
Qed.

Lemma same_partition_trans options a b c :
  same_partition options a b = true →
  same_partition options a c = same_partition options b c.
Proof.
  unfold same_partition. destruct (groupingKey options) as [key|]; [|done].
  case_bool_decide; [|done]. intros Hab%bool_decide_eq_true.
  by rewrite Hab.
Qed.

(** What the range update does to a document, as a map on its boundaries:
    the move above [z] inside the partition, nothing outside. *)
Lemma shifted_bump options self z delta n :
  let g := if same_partition options n self then bump z delta else id in
  lft (shifted options self (Some z) delta n) = g <$> lft n
  ∧ rgt (shifted options self (Some z) delta n) = g <$> rgt n.
Proof.
  unfold shifted. cbn [lft rgt set_lft set_rgt].
  destruct (same_partition options n self); cbn [andb]; cbn zeta; split.
  - destruct (lft n) as [l|]; [|done]. unfold js_gt, js_lt, js_add, bump. simpl.
    by destruct (z <? l).
  - destruct (rgt n) as [r|]; [|done]. unfold js_gt, js_lt, js_add, bump. simpl.
    by destruct (z <? r).
  - by destruct (lft n).
  - by destruct (rgt n).
Qed.

Lemma bump_up_mono z v w : v < w → bump z 2 v < bump z 2 w.
Proof. unfold bump. intros. destruct (z <? v) eqn:?, (z <? w) eqn:?; lia. Qed.

Lemma laminar_mono (g : Z → Z) la ra lb rb :
  (∀ v w, v < w → g v < g w) →
  laminar la ra lb rb → laminar (g la) (g ra) (g lb) (g rb).
Proof.
  intros Hg. unfold laminar. intros [[? ?]|[[? ?]|[?|?]]].
  - left. split; by apply Hg.
  - right. left. split; by apply Hg.
  - right. right. left. by apply Hg.
  - right. right. right. by apply Hg.
Qed.

Lemma laminar_sym la ra lb rb : laminar la ra lb rb → laminar lb rb la ra.
Proof. unfold laminar. tauto. Qed.

Lemma laminar_gap z la ra :
  la < ra → laminar (z + 1) (z + 2) (bump z 2 la) (bump z 2 ra).
Proof.
  unfold laminar, bump. intros.
  destruct (z <? la) eqn:?, (z <? ra) eqn:?; lia.
Qed.

Lemma maxRgt_of_Some nodes p :
  has_bounds p = true → ∃ z, maxRgt_of nodes p = Some z.
Proof.
  intros [(z & Hz & _)%truthy_Some _]%andb_true_iff. unfold maxRgt_of.
  case_bool_decide; [by exists z|].
  destruct (fold_max_spec nodes 0) as (z' & Hz' & _). by exists z'.
Qed.

Lemma shifted_injective_fields options self m delta a b :
  same_partition options (shifted options self m delta a)
    (shifted options self m delta b)
  = same_partition options a b.
Proof. reflexivity. Qed.

(** The creation hook's update keeps the invariant among the documents
    already there. *)
Lemma shifted_well_formed options self z s :
  well_formed options s = true →
  well_formed options (shifted options self (Some z) 2 <$> s) = true.
Proof.
  rewrite !well_formed_spec. intros Hwf a' Ha'.
  apply list_elem_of_fmap in Ha' as (a & -> & Ha).
  destruct (Hwf a Ha) as [Hoa Hca].
  destruct (shifted_bump options self z 2 a) as [Hla Hra].
  assert (∀ n v w, v < w →
            (if same_partition options n self then bump z 2 else id) v
            < (if same_partition options n self then bump z 2 else id) w) as Hmono.
  { intros n v w. destruct (same_partition options n self); [apply bump_up_mono|done]. }
  split.
  - apply ordered_intro. intros la' ra'. rewrite Hla, Hra.
    destruct (lft a) as [la|] eqn:Ela, (rgt a) as [ra|] eqn:Era; try done.
    intros [= <-] [= <-]. apply Hmono. by eapply ordered_elim.
  - intros b' Hb'. apply list_elem_of_fmap in Hb' as (b & -> & Hb).
    apply compatible_intro. intros Hne Hpart la' ra' lb' rb'.
    rewrite shifted_injective_fields in Hpart.
    destruct (shifted_bump options self z 2 b) as [Hlb Hrb].
    rewrite <- (same_partition_trans _ _ _ _ Hpart) in Hlb, Hrb.
    rewrite Hla, Hra, Hlb, Hrb.
    destruct (lft a) as [la|] eqn:Ela, (rgt a) as [ra|] eqn:Era,
      (lft b) as [lb|] eqn:Elb, (rgt b) as [rb|] eqn:Erb; try done.
    intros [= <-] [= <-] [= <-] [= <-]. apply laminar_mono; [by apply Hmono|].
    eapply (compatible_elim options a b); try done.
    + by apply Hca.
    + by intros ->.
Qed.

Lemma well_formed_snoc options s d :
  well_formed options s = true →
  ordered d = true →
  (∀ a, a ∈ s → compatible options a d = true ∧ compatible options d a = true) →
  well_formed options (s ++ [d]) = true.
Proof.
  rewrite !well_formed_spec. intros Hwf Hd Hpairs a Ha.
  apply elem_of_app in Ha as [Ha|Ha%list_elem_of_singleton].
  - destruct (Hwf a Ha) as [Hoa Hca]. split; [done|]. intros b Hb.
    apply elem_of_app in Hb as [Hb|Hb%list_elem_of_singleton]; [by apply Hca|].
    subst b. by apply Hpairs.
  - subst a. split; [done|]. intros b Hb.
    apply elem_of_app in Hb as [Hb|Hb%list_elem_of_singleton]; [by apply Hpairs|].
    subst b. unfold compatible. by rewrite bool_decide_eq_true_2.
Qed.

Lemma well_formed_snoc_unbounded options s d :
  well_formed options s = true → bounds_present d = false →
  well_formed options (s ++ [d]) = true.
Proof.
  intros Hwf Hd. apply well_formed_snoc; [done|..].
  - unfold ordered. by rewrite Hd.
  - assert (∀ l r, lft d = Some l → rgt d = Some r → False) as Hno.
    { unfold bounds_present in Hd. intros l r Hl Hr. by rewrite Hl, Hr in Hd. }
    intros a _. split; apply compatible_intro; intros _ _ la ra lb rb ? ? ? ?;
      exfalso; eauto.
Qed.

Lemma well_formed_snoc_gap options self z v s :
  well_formed options s = true →
  well_formed options
    ((shifted options self (Some z) 2 <$> s)
     ++ [set_rgt (js_add (Some z) 2) (set_lft (js_add (Some z) 1) (set_lvl v self))])
  = true.
Proof.
  intros Hwf. apply well_formed_snoc.
  - by apply shifted_well_formed.
  - apply ordered_intro. simpl. intros la ra [= <-] [= <-]. lia.
  - intros a' Ha'. apply list_elem_of_fmap in Ha' as (a & -> & Ha).
    destruct (proj1 (well_formed_spec options s) Hwf a Ha) as [Hoa _].
    assert (∀ la' ra', same_partition options a self = true →
              lft (shifted options self (Some z) 2 a) = Some la' →
              rgt (shifted options self (Some z) 2 a) = Some ra' →
              laminar (z + 1) (z + 2) la' ra') as Hgap.
    { intros la' ra' Hpart. destruct (shifted_bump options self z 2 a) as [Hla Hra].
      rewrite Hpart in Hla, Hra. rewrite Hla, Hra.
      destruct (lft a) as [la|] eqn:Ela, (rgt a) as [ra|] eqn:Era; try done.
      intros [= <-] [= <-]. apply laminar_gap. by eapply ordered_elim. }
    split; apply compatible_intro; intros _ Hpart la ra lb rb; simpl.
    + intros Hla Hra [= <-] [= <-]. apply laminar_sym. by apply Hgap.
    + intros [= <-] [= <-] Hlb Hrb. apply Hgap; [|done..].
      by rewrite same_partition_sym.
Qed.

(** X10.  Creating a document keeps the nested-set invariant: when the
    collection satisfies it and the new document comes without boundaries,
    the collection with the new document appended satisfies it again,
    whichever branch the creation hook takes and whatever grouping key is
    configured.  The range update moves the boundaries above [maxRgt] by
    the same amount, and the two values it frees are the new document's. *)
Theorem save_keeps_invariant (options : INestedSetOptions) (s : Store) (doc : Node) :
  well_formed options s = true →
  bounds_present doc = false →
  well_formed options (save options s doc).1 = true.
Proof.
  intros Hwf Hdoc. unfold save. cbn [fst].
  destruct (parent s doc) as [p|] eqn:Hp.
  2:{ rewrite pre_save_no_parent by done. by apply well_formed_snoc_unbounded. }
  destruct (has_bounds p) eqn:Hb.
  2:{ rewrite (pre_save_parent_unbuilt _ _ _ _ Hp Hb).
      by apply well_formed_snoc_unbounded. }
  destruct (forallb has_bounds (siblings s doc empty_filter)) eqn:Hs.
  2:{ rewrite (pre_save_sibling_unbuilt _ _ _ _ Hp Hb Hs).
      by apply well_formed_snoc_unbounded. }
  rewrite (pre_save_built _ _ _ _ Hp Hb Hs). cbn zeta.
  destruct (maxRgt_of_Some (siblings s doc empty_filter) p Hb) as [z ->].
  cbn [hook_store hook_doc next]. by apply well_formed_snoc_gap.
Qed.

Lemma save_keeps_invariant_witness :
  well_formed no_options (save no_options office_built joe).1 = true.
Proof.
  apply (save_keeps_invariant no_options office_built joe).
  - vm_compute. reflexivity.
  - reflexivity.
Defined.

(** ** The nested-set invariant under the removal hook *)

Lemma bump_down_mono z v w :
  v ≤ z ∨ z + 3 ≤ v → w ≤ z ∨ z + 3 ≤ w → v < w →
  bump z (-2) v < bump z (-2) w.
Proof. unfold bump. intros. destruct (z <? v) eqn:?, (z <? w) eqn:?; lia. Qed.

(** Next to a document that holds [z + 1] and [z + 2], the boundaries of
    any other document of its partition lie at [z] or below, or at [z + 3]
    or above. *)
Lemma beside_the_gap options a d z la ra :
  ordered a = true → compatible options a d = true →
  a ≠ d → same_partition options a d = true →
  lft d = Some (z + 1) → rgt d = Some (z + 2) →
  lft a = Some la → rgt a = Some ra →
  la < ra ∧ (la ≤ z ∨ z + 3 ≤ la) ∧ (ra ≤ z ∨ z + 3 ≤ ra).
Proof.
  intros Ho Hc Hne Hpart Hld Hrd Hla Hra.
  pose proof (ordered_elim _ _ _ Ho Hla Hra).
  pose proof (compatible_elim _ _ _ _ _ _ _ Hc Hne Hpart Hla Hra Hld Hrd) as Hlam.
  unfold laminar in Hlam. lia.
Qed.

Lemma delete_by_id_elem (g : Node → Node) (s : Store) i a' :
  (∀ n, _id (g n) = _id n) →
  a' ∈ delete_by_id (g <$> s) i → ∃ a, a ∈ s ∧ _id a ≠ i ∧ a' = g a.
Proof.
  intros Hg. unfold delete_by_id. intros [Hid Ha']%list_elem_of_filter.
  apply list_elem_of_fmap in Ha' as (a & -> & Ha). exists a.
  by rewrite Hg in Hid.
Qed.

(** X11.  Removing a document that sits right after [maxRgt], that is a
    leaf that is the last or the only child of its parent, keeps the
    nested-set invariant: the documents left in the collection satisfy it
    again after the removal hook's -2 update and the deletion. *)
Theorem remove_last_leaf_keeps_invariant (options : INestedSetOptions)
    (s : Store) (d p : Node) (z : Z) :
  well_formed options s = true →
  d ∈ s →
  parent s d = Some p →
  has_bounds p = true →
  forallb has_bounds (siblings s d empty_filter) = true →
  maxRgt_of (siblings s d empty_filter) p = Some z →
  lft d = Some (z + 1) →
  rgt d = Some (z + 2) →
  well_formed options (remove options s d) = true.
Proof.
  intros Hwf Hd Hp Hbp Hs Hm Hld Hrd. unfold remove.
  rewrite (pre_remove_built _ _ _ _ Hp Hbp Hs), Hm. cbn [hook_store next].
  pose proof (proj1 (well_formed_spec options s) Hwf) as Hs_ok.
  assert (∀ a la ra, a ∈ s → _id a ≠ _id d →
            same_partition options a d = true →
            lft a = Some la → rgt a = Some ra →
            la < ra ∧ (la ≤ z ∨ z + 3 ≤ la) ∧ (ra ≤ z ∨ z + 3 ≤ ra)) as Hgap.
  { intros a la ra Ha Hid Hpart Hla Hra. destruct (Hs_ok a Ha) as [Hoa Hca].
    eapply beside_the_gap; try done; [by apply Hca|by intros ->]. }
  apply well_formed_spec. intros a' Ha'.
  apply delete_by_id_elem in Ha' as (a & Ha & Hida & ->); [|done].
  destruct (Hs_ok a Ha) as [Hoa Hca].
  destruct (shifted_bump options d z (-2) a) as [Hla Hra].
  split.
  - apply ordered_intro. intros la' ra'. rewrite Hla, Hra.
    destruct (lft a) as [la|] eqn:Ela, (rgt a) as [ra|] eqn:Era; try done.
    intros [= <-] [= <-].
    destruct (same_partition options a d) eqn:Hpart.
    + destruct (Hgap a la ra Ha Hida Hpart Ela Era) as (? & ? & ?).
      by apply bump_down_mono.
    + by eapply ordered_elim.
  - intros b' Hb'.
    apply delete_by_id_elem in Hb' as (b & Hb & Hidb & ->); [|done].
    apply compatible_intro. intros Hne Hpart la' ra' lb' rb'.
    rewrite shifted_injective_fields in Hpart.
    destruct (shifted_bump options d z (-2) b) as [Hlb Hrb].
    rewrite <- (same_partition_trans _ _ _ _ Hpart) in Hlb, Hrb.
    rewrite Hla, Hra, Hlb, Hrb.
    destruct (lft a) as [la|] eqn:Ela, (rgt a) as [ra|] eqn:Era,
      (lft b) as [lb|] eqn:Elb, (rgt b) as [rb|] eqn:Erb; try done.
    intros [= <-] [= <-] [= <-] [= <-].
    assert (laminar la ra lb rb) as Hlam.
    { eapply (compatible_elim options a b); try done; [by apply Hca|by intros ->]. }
    destruct (same_partition options a d) eqn:Hpa; [|done].
    assert (same_partition options b d = true) as Hpb
      by by rewrite <- (same_partition_trans _ _ _ _ Hpart).
    destruct (Hgap a la ra Ha Hida Hpa Ela Era) as (? & ? & ?).
    destruct (Hgap b lb rb Hb Hidb Hpb Elb Erb) as (? & ? & ?).
    unfold laminar in *.
    destruct Hlam as [[? ?]|[[? ?]|[?|?]]].
    + left. split; by apply bump_down_mono.
    + right. left. split; by apply bump_down_mono.
    + right. right. left. by apply bump_down_mono.
    + right. right. right. by apply bump_down_mono.
Qed.

Lemma remove_last_leaf_keeps_invariant_witness :
  well_formed no_options (remove no_options office_built (built creed 5 6)) = true.
Proof.
  apply (remove_last_leaf_keeps_invariant no_options office_built
           (built creed 5 6) (built meredith 2 7) 4).
  - vm_compute. reflexivity.
  - by_computation.
  - vm_compute. reflexivity.
  - reflexivity.
  - vm_compute. reflexivity.
  - vm_compute. reflexivity.
  - reflexivity.
  - reflexivity.
Defined.

Lemma well_formed_pair options s a b :
  well_formed options s = true → a ∈ s → b ∈ s → compatible options a b = true.
Proof.
  intros Hwf Ha Hb. by apply (proj1 (well_formed_spec options s) Hwf a Ha).
Qed.

Lemma delete_by_id_keeps (s : Store) i a : a ∈ s → _id a ≠ i → a ∈ delete_by_id s i.
Proof. intros Ha Hi. unfold delete_by_id. by apply list_elem_of_filter. Qed.

(** X12.  The removal hook is right only for a last child.  When the
    document being removed has a sibling that reaches its parent's right
    end (its [rgt] is the parent's minus one, as after a rebuild), [maxRgt]
    is that sibling's [rgt]: the parent loses 2 on [rgt] while the sibling
    stays, so that the sibling's interval sticks out of its parent's and
    the collection no longer satisfies the nested-set invariant. *)
Theorem remove_earlier_sibling_breaks_invariant (options : INestedSetOptions)
    (s : Store) (d p q : Node) (lp rp lq : Z) :
  parent s d = Some p →
  has_bounds p = true →
  forallb has_bounds (siblings s d empty_filter) = true →
  q ∈ siblings s d empty_filter →
  Forall (λ n, js_lt (rgt n) (rgt p) = true) (siblings s d empty_filter) →
  lft p = Some lp → rgt p = Some rp →
  lft q = Some lq → rgt q = Some (rp - 1) →
  0 ≤ lp → lp < lq → lq < rp - 1 →
  same_partition options p d = true →
  same_partition options q d = true →
  _id p ≠ _id d →
  well_formed options (remove options s d) = false.
Proof.
  intros Hp Hbp Hs Hq Hin Hlp Hrp Hlq Hrq H0 Hpq Hqr Hpp Hpq' Hid.
  assert (maxRgt_of (siblings s d empty_filter) p = Some (rp - 1)) as Hm.
  { unfold maxRgt_of. rewrite bool_decide_eq_false_2.
    2:{ intros Hlen. apply length_zero_iff_nil in Hlen. rewrite Hlen in Hq.
        by apply elem_of_nil in Hq. }
    destruct (fold_max_spec (siblings s d empty_filter) 0) as (z & -> & Hz & Hub & Hmax).
    f_equal. specialize (Hub q Hq). rewrite Hrq in Hub.
    unfold js_gt, js_lt in Hub. apply Z.ltb_ge in Hub.
    destruct Hmax as [->|(n & Hn & Hrn)]; [lia|].
    rewrite Forall_forall in Hin. specialize (Hin n Hn).
    rewrite Hrn, Hrp in Hin. unfold js_lt in Hin. apply Z.ltb_lt in Hin. lia. }
  destruct (well_formed options (remove options s d)) eqn:Hwf; [exfalso|done].
  unfold remove in Hwf.
  rewrite (pre_remove_built _ _ _ _ Hp Hbp Hs), Hm in Hwf. cbn [hook_store next] in Hwf.
  apply parent_Some in Hp as [Hps _].
  pose proof (siblings_elem _ _ _ Hq) as Hqs.
  assert (_id q ≠ _id d) as Hidq.
  { rewrite siblings_plain in Hq. by apply list_elem_of_filter in Hq as [[_ ?] _]. }
  set (sh := shifted options d (Some (rp - 1)) (-2)) in *.
  assert (compatible options (sh p) (sh q) = true) as Hc.
  { apply (well_formed_pair _ _ _ _ Hwf).
    - apply delete_by_id_keeps; [|done]. by apply list_elem_of_fmap_2.
    - apply delete_by_id_keeps; [|done]. by apply list_elem_of_fmap_2. }
  destruct (shifted_bump options d (rp - 1) (-2) p) as [Hlp' Hrp'].
  destruct (shifted_bump options d (rp - 1) (-2) q) as [Hlq' Hrq'].
  rewrite Hpp, Hlp in Hlp'. rewrite Hpp, Hrp in Hrp'.
  rewrite Hpq', Hlq in Hlq'. rewrite Hpq', Hrq in Hrq'.
  fold sh in Hlp', Hrp', Hlq', Hrq'.
  assert (laminar (bump (rp - 1) (-2) lp) (bump (rp - 1) (-2) rp)
            (bump (rp - 1) (-2) lq) (bump (rp - 1) (-2) (rp - 1))) as Hlam.
  { eapply (compatible_elim options (sh p) (sh q)); try done.
    - intros Heq. rewrite Heq, Hrq' in Hrp'. injection Hrp' as Hrp'.
      unfold bump in Hrp'.
      rewrite (proj2 (Z.ltb_ge (rp - 1) (rp - 1))),
        (proj2 (Z.ltb_lt (rp - 1) rp)) in Hrp' by lia. lia.
    - unfold sh. rewrite shifted_injective_fields.
      rewrite (same_partition_trans _ _ _ _ Hpp). by rewrite same_partition_sym. }
  unfold laminar, bump in Hlam.
  rewrite (proj2 (Z.ltb_ge (rp - 1) lp)), (proj2 (Z.ltb_ge (rp - 1) lq)),
    (proj2 (Z.ltb_ge (rp - 1) (rp - 1))), (proj2 (Z.ltb_lt (rp - 1) rp)) in Hlam by lia.
  lia.
Qed.

Lemma remove_earlier_sibling_breaks_invariant_witness :
  well_formed no_options (remove no_options office_built (built meredith 2 7)) = false.
Proof.
  apply (remove_earlier_sibling_breaks_invariant no_options office_built
           (built meredith 2 7) (built michael 1 20) (built angela 16 19) 1 20 16).
  - vm_compute. reflexivity.
  - reflexivity.
  - vm_compute. reflexivity.
  - by_computation.
  - by_computation.
  - reflexivity.
  - reflexivity.
  - reflexivity.
  - reflexivity.
  - lia.
  - lia.
  - lia.
  - reflexivity.
  - reflexivity.
  - vm_compute. lia.
Defined.

(** ** Where the creation hook puts the new document *)

(** X13.  When the parent's interval is in order and in the new document's
    partition and every existing sibling ends inside it, the creation hook
    leaves the parent's [lft] where it was, moves its [rgt] by exactly 2,
    and the new document is a leaf that [isDescendantOf] the stored parent,
    which in turn [isAncestorOf] it. *)
Theorem created_document_is_leaf_in_parent (options : INestedSetOptions)
    (s : Store) (self p : Node) (i : nat) :
  s !! i = Some p →
  parent s self = Some p →
  has_bounds p = true →
  nonneg (lft p) = true →
  js_lt (lft p) (rgt p) = true →
  same_partition options p self = true →
  Forall (λ n, has_bounds n = true
               ∧ js_lt (lft p) (rgt n) = true ∧ js_lt (rgt n) (rgt p) = true)
    (siblings s self empty_filter) →
  ∃ p',
    hook_store (pre_save options s self) !! i = Some p'
    ∧ lft p' = lft p
    ∧ rgt p' = js_add (rgt p) 2
    ∧ isLeaf (hook_doc (pre_save options s self)) = JBool true
    ∧ isDescendantOf (hook_doc (pre_save options s self)) p' = true
    ∧ isAncestorOf p' (hook_doc (pre_save options s self)) = true.
Proof.
  intros Hi Hp Hbp Hnn Hord Hpart Hsibs.
  rewrite (pre_save_built options s self p Hp Hbp)
    by (eapply forallb_of_Forall; [|exact Hsibs]; by intros n [? _]).
  cbn zeta. cbn [hook_store hook_doc next].
  destruct (lft p) as [lp|] eqn:Hlp, (rgt p) as [rp|] eqn:Hrp; try done.
  unfold js_lt in Hord. apply Z.ltb_lt in Hord.
  assert (0 < lp) as Hlp0.
  { apply andb_true_iff in Hbp as [Hl _]. rewrite Hlp in Hl.
    destruct (truthy_pos _ Hl Hnn) as (z & [= <-] & ?). done. }
  assert (∃ z, maxRgt_of (siblings s self empty_filter) p = Some z
               ∧ lp ≤ z < rp) as (z & -> & Hz).
  { unfold maxRgt_of. case_bool_decide as Hlen.
    - exists lp. rewrite Hlp. split; [done|lia].
    - destruct (fold_max_spec (siblings s self empty_filter) 0)
        as (z & -> & Hz0 & Hub & Hmax).
      exists z. split; [done|].
      destruct Hmax as [->|(n & Hn & Hrn)].
      + destruct (siblings s self empty_filter) as [|n nodes]; [done|].
        apply Forall_cons in Hsibs as [(_ & Hn1 & Hn2) _].
        specialize (Hub n (list_elem_of_here _ _)).
        destruct (rgt n) as [r|]; [|done].
        unfold js_gt, js_lt in *. apply Z.ltb_lt in Hn1. apply Z.ltb_ge in Hub. lia.
      + rewrite Forall_forall in Hsibs. destruct (Hsibs n Hn) as (_ & Hn1 & Hn2).
        rewrite Hrn in Hn1, Hn2. unfold js_lt in *.
        apply Z.ltb_lt in Hn1, Hn2. lia. }
  exists (shifted options self (Some z) 2 p).
  destruct (shifted_bump options self z 2 p) as [Hl' Hr'].
  rewrite Hpart, Hlp in Hl'. rewrite Hpart, Hrp in Hr'.
  unfold bump in Hl', Hr'. cbn [fmap option_fmap option_map] in Hl', Hr'.
  rewrite (proj2 (Z.ltb_ge z lp)) in Hl' by lia.
  rewrite (proj2 (Z.ltb_lt z rp)) in Hr' by lia.
  split_and!.
  - by rewrite list_lookup_fmap, Hi.
  - by rewrite Hl'.
  - by rewrite Hr'.
  - unfold isLeaf, js_and, js_add. simpl.
    rewrite (proj2 (Z.eqb_neq (z + 1) 0)) by lia. simpl.
    rewrite (proj2 (Z.eqb_neq (z + 2) 0)) by lia. simpl.
    f_equal. apply bool_decide_eq_true_2. f_equal. lia.
  - unfold isDescendantOf. rewrite Hl', Hr'. simpl.
    apply andb_true_iff. split; apply Z.ltb_lt; lia.
  - unfold isAncestorOf. rewrite Hl', Hr'. simpl.
    apply andb_true_iff. split; apply Z.ltb_lt; lia.
Qed.

Lemma created_document_is_leaf_in_parent_witness :
  ∃ p',
    hook_store (pre_save no_options office_built toby) !! 2%nat = Some p'
    ∧ lft p' = lft (built jim 8 15)
    ∧ rgt p' = js_add (rgt (built jim 8 15)) 2
    ∧ isLeaf (hook_doc (pre_save no_options office_built toby)) = JBool true
    ∧ isDescendantOf (hook_doc (pre_save no_options office_built toby)) p' = true
    ∧ isAncestorOf p' (hook_doc (pre_save no_options office_built toby)) = true.
Proof.
  apply (created_document_is_leaf_in_parent no_options office_built toby
           (built jim 8 15) 2).
  - reflexivity.
  - vm_compute. reflexivity.
  - reflexivity.
  - reflexivity.
  - reflexivity.
  - reflexivity.
  - by_computation.
Defined.

(** ** How the parent, children and siblings queries fit together *)

Lemma parent_of_unique s x p :
  NoDup (_id <$> s) → p ∈ s → parentReference x = Some (_id p) →
  parent s x = Some p.
Proof.
  intros Hnd Hp Hx. rewrite parent_plain, Hx.
  assert (∀ l, l ⊆ s → p ∈ l →
            head (filter (λ n, Some (_id n) = Some (_id p)) l) = Some p) as Hhead.
  { induction l as [|n l IH]; intros Hsub Hin; [by apply elem_of_nil in Hin|].
    rewrite filter_cons. destruct (decide (Some (_id n) = Some (_id p))) as [Hid|Hid].
    - simpl. f_equal. apply (NoDup_fmap_elem _id s); [done| |done|congruence].
      apply Hsub, list_elem_of_here.
    - apply elem_of_cons in Hin as [->|Hin]; [done|]. apply IH; [|done].
      intros y Hy. by apply Hsub, list_elem_of_further. }
  by apply Hhead.
Qed.

(** X14.  With unique identifiers, [parent] and [children] are converse:
    a document of the collection has [p] as its [parent] exactly when the
    [children] query of [p] returns it.  [siblings] is symmetric, and two
    siblings have the same [parent]. *)
Theorem parent_children_siblings_agree (s : Store) (x p : Node) :
  NoDup (_id <$> s) →
  x ∈ s →
  p ∈ s →
  (parent s x = Some p ↔ x ∈ children s p empty_filter)
  ∧ ∀ y, y ∈ siblings s x empty_filter →
         x ∈ siblings s y empty_filter ∧ parent s y = parent s x.
Proof.
  intros Hnd Hx Hp. split.
  - rewrite children_plain. unfold pointing_to. rewrite list_elem_of_filter. split.
    + intros [_ Href]%parent_Some. done.
    + intros [Href _]. by apply parent_of_unique.
  - intros y. rewrite !siblings_plain, !list_elem_of_filter.
    intros [[Href Hid] Hy]. split; [split; [split|]|].
    + by symmetry.
    + intros Heq. by apply Hid.
    + done.
    + by rewrite !parent_plain, Href.
Qed.

Lemma parent_children_siblings_agree_witness :
  (parent office_built (built kelly 3 4) = Some (built meredith 2 7)
   ↔ built kelly 3 4 ∈ children office_built (built meredith 2 7) empty_filter)
  ∧ ∀ y, y ∈ siblings office_built (built kelly 3 4) empty_filter →
         built kelly 3 4 ∈ siblings office_built y empty_filter
         ∧ parent office_built y = parent office_built (built kelly 3 4).
Proof.
  apply (parent_children_siblings_agree office_built (built kelly 3 4)
           (built meredith 2 7)).
  - by_computation.
  - by_computation.
  - by_computation.
Defined.

(** ** rebuildTree on a document that is its own child *)

Lemma own_child_frame s s' i :
  frame <$> s' = frame <$> s → own_child s i → own_child s' i.
Proof.
  intros Hframe (n & Hn & Hid & Href).
  assert (frame n ∈ frame <$> s') as Hn'.
  { rewrite Hframe. by apply list_elem_of_fmap_2. }
  apply list_elem_of_fmap in Hn' as (n' & Heq & Hn').
  exists n'. unfold frame in Heq. split; [done|].
  injection Heq as Hid' Href' _ _. split; congruence.
Qed.

Lemma rebuild_loop_diverges fuel :
  (∀ s parent left, own_child s (_id parent) →
                    rebuildTree fuel s parent left = OutOfFuel) →
  ∀ items s par,
    (∃ item, item ∈ items ∧ own_child s (_id item)) →
    forEachSeries items (rebuild_child (rebuildTree fuel)) (s, par) = None.
Proof.
  intros IH. induction items as [|item items IHitems]; intros s par (it & Hit & Hown).
  - by apply elem_of_nil in Hit.
  - cbn [forEachSeries rebuild_child].
    pose proof (rebuildTree_frame fuel s item (rgt par)) as Hframe.
    destruct (rebuildTree fuel s item (rgt par)) as [e s1 item1|] eqn:Hcall; [|done].
    destruct Hframe as [Hs1 _].
    apply elem_of_cons in Hit as [->|Hit].
    + by rewrite (IH s item (rgt par) Hown) in Hcall.
    + apply IHitems. exists it. split; [done|].
      eapply own_child_frame; [|exact Hown].
      by rewrite updateOne_frame, Hs1.
Qed.

(** X15.  [rebuildTree] never settles on a document that the collection
    lists among its own children: a document that names itself as its
    parent sends the recursion back to itself, whatever fuel is given. *)
Theorem rebuildTree_loops_on_own_child (fuel : nat) (s : Store) (parent : Node)
    (left : num) :
  own_child s (_id parent) →
  rebuildTree fuel s parent left = OutOfFuel.
Proof.
  revert s parent left. induction fuel as [|fuel IH]; intros s parent left Hown; [done|].
  cbn [rebuildTree]. unfold array_truthy. cbn [negb].
  rewrite find_children_pointing. cbn [_id set_rgt set_lft].
  destruct Hown as (n & Hn & Hid & Href).
  assert (n ∈ pointing_to s (_id parent)) as Hchild
    by by apply list_elem_of_filter.
  rewrite bool_decide_eq_true_2.
  2:{ destruct (pointing_to s (_id parent)); [by apply elem_of_nil in Hchild|simpl; lia]. }
  rewrite (rebuild_loop_diverges fuel IH); [done|].
  exists n. split; [done|]. exists n. rewrite Hid. done.
Qed.

Lemma rebuildTree_loops_on_own_child_witness :
  rebuildTree 5 [ouroboros] ouroboros (Some 1) = OutOfFuel.
Proof.
  apply (rebuildTree_loops_on_own_child 5 [ouroboros] ouroboros (Some 1)).
  exists ouroboros. split; [by_computation|]. split; reflexivity.
Defined.
